(** * dsggregory/config: binding a struct to flags and environment variables

    A shallow embedding of [config.go]: the environment resolver
    [lookupEnv], the reflective struct walker [reflectStruct], the entry
    points [readConfig], [readConfigWithFlagset] and [ReadConfig], and the
    properties of the specification that can be stated over them.

    Go values are embedded as a tree ([value]): a struct is the list of its
    fields, a pointer is [nil] or owns its target.  Configuration values are
    trees of composites (section 5 of the specification), so a pointer held
    by the flag set is the path of field indices that leads to the field. *)

From Stdlib Require Import ZArith Ascii String.
From stdpp Require Import base option list strings gmap.

Set Warnings "-register-all".

Local Open Scope string_scope.
Local Open Scope list_scope.
Local Open Scope Z_scope.

(** ** Strings *)

(** Go strings are byte strings.  [strings.ToUpper] maps the ASCII letters
    a-z to A-Z; no rune outside ASCII has T, R, U, E or 1 as its upper
    case, so comparing its result with "TRUE" or "1" only depends on the
    ASCII part modelled here. *)
Definition upperByte (c : ascii) : ascii :=
  let n := N_of_ascii c in
  if ((97 <=? n) && (n <=? 122))%N then ascii_of_N (n - 32) else c.

Definition lowerByte (c : ascii) : ascii :=
  let n := N_of_ascii c in
  if ((65 <=? n) && (n <=? 90))%N then ascii_of_N (n + 32) else c.

Fixpoint ToUpper (s : string) : string :=
  match s with
  | EmptyString => EmptyString
  | String c s' => String (upperByte c) (ToUpper s')
  end.

Fixpoint ToLower (s : string) : string :=
  match s with
  | EmptyString => EmptyString
  | String c s' => String (lowerByte c) (ToLower s')
  end.

(** Two strings match case-insensitively when they differ only in the case
    of their ASCII letters. *)
Definition EqualFold (s t : string) : Prop := ToLower s = ToLower t.

#[global] Instance EqualFold_dec (s t : string) : Decision (EqualFold s t).
Proof. unfold EqualFold. apply _. Defined.

(** ** Values *)

(** The six types the flag package has a [XxxVar] registration for. *)
Inductive kind := KInt | KInt64 | KFloat64 | KString | KBool | KDuration.

#[global] Instance kind_eq_dec : EqDecision kind.
Proof. solve_decision. Defined.

(** What the walker reads of a [reflect.StructField]. *)
Record finfo := Finfo {
  Name : string;                    (* field.Name *)
  Exported : bool;                  (* CanInterface() && CanSet() *)
  Tag : list (string * string)      (* field.Tag, key/value pairs in order *)
}.

(** A [reflect.Value] together with what the walker asks of its type.
    - [VInt] .. [VDuration]: a value of type int, int64, float64 (its IEEE
      bits), string, bool, time.Duration (nanoseconds);
    - [VStruct]: a struct, the list of its fields in declaration order;
    - [VPtr]: a pointer, [None] for nil;
    - [VIface ty dyn]: a value of interface type [ty] holding [dyn];
    - [VOther ty]: a value of any other type (uint, a slice, a map, a named
      integer type, ...), [ty] being [Type.String()].  A defined type prints
      as its package's name and its own, so [ty] is none of int, int64,
      float64, string and bool, but it is time.Duration for a type
      [Duration] of another package whose name is [time]; the same holds
      of the [ty] of [VIface]. *)
Inductive value :=
| VInt (n : Z)
| VInt64 (n : Z)
| VFloat64 (bits : Z)
| VString (s : string)
| VBool (b : bool)
| VDuration (d : Z)
| VStruct (fs : list (finfo * value))
| VPtr (tgt : option value)
| VIface (ty : string) (dyn : option value)
| VOther (ty : string).

Abbreviation fields := (list (finfo * value)).

(** [reflect.StructTag.Lookup]: the value of the first pair with that key,
    and whether there is one. *)
Fixpoint Lookup (tag : list (string * string)) (key : string) : string * bool :=
  match tag with
  | [] => ("", false)
  | (k, v) :: tag' => if decide (k = key) then (v, true) else Lookup tag' key
  end.

(** [reflect.StructTag.Get] *)
Definition Get (tag : list (string * string)) (key : string) : string :=
  fst (Lookup tag key).

(** [field.Type.String()] for the types the dispatch of [reflectStruct]
    can see (a struct or pointer never reaches it). *)
Definition TypeString (v : value) : string :=
  match v with
  | VInt _ => "int"
  | VInt64 _ => "int64"
  | VFloat64 _ => "float64"
  | VString _ => "string"
  | VBool _ => "bool"
  | VDuration _ => "time.Duration"
  | VStruct _ => "struct"
  | VPtr _ => "ptr"
  | VIface ty _ => ty
  | VOther ty => ty
  end.

(** [fValue.Interface()]: the value as an [interface{}]; an interface
    field yields what it holds (a nil interface stays one). *)
Definition Interface (v : value) : value :=
  match v with
  | VIface _ (Some d) => d
  | _ => v
  end.

Definition kindOf (v : value) : option kind :=
  match v with
  | VInt _ => Some KInt
  | VInt64 _ => Some KInt64
  | VFloat64 _ => Some KFloat64
  | VString _ => Some KString
  | VBool _ => Some KBool
  | VDuration _ => Some KDuration
  | _ => None
  end.

(** ** Errors *)

(** The errors of the package, one constructor per format string. *)
Inductive error :=
| ErrNotStructPtr
    (* "argument is not a struct pointer" *)
| ErrParse (envNm raw : string)
    (* "%w, lookupEnv[%s]: %v\n", the cause, envNm, res *)
| ErrLookupUnsupported (envNm : string)
    (* "lookupEnv[%s]: unsupported type %v", envNm, t: the default case
       binds t to defaultVal itself, so %v prints the value *)
| ErrUnaddressable (fieldName : string)
    (* "unable to address field %s" *)
| ErrUnsupportedStructType (ty : string)
    (* "unsuported struct type %s", field.Type.String() *)
| ErrFieldFailure (inner : error) (fieldName : string).
    (* "%w; %s: field failure", err, field.Name *)

(** What stops a call otherwise than by returning nil: an error value, a
    panic of the reflect or flag package, or the end of the process. *)
Inductive panic :=
| PanicNumField                     (* reflect: NumField of non-struct Value *)
| PanicAssert                       (* interface conversion *)
| PanicBadName (name : string)      (* flag: name begins with - or contains = *)
| PanicRedefined (name : string).   (* flag redefined: name *)

Inductive failure :=
| Err (e : error)
| Panic (p : panic)
| Exit.                             (* os.Exit, the flag set being ExitOnError *)

(** ** The collaborators *)

(** The functions of other packages the code calls: strcase, strconv, time
    and the [Set] methods of the flag package's value types. *)
Class GoLib := {
  ToKebab : string → string;            (* strcase.ToKebab *)
  ToScreamingSnake : string → string;   (* strcase.ToScreamingSnake *)
  Atoi : string → option Z;             (* strconv.Atoi *)
  ParseInt : string → option Z;         (* strconv.ParseInt(s, 10, 64) *)
  ParseFloat : string → option Z;       (* strconv.ParseFloat(s, 64) *)
  ParseDuration : string → option Z;    (* time.ParseDuration *)
  flagNameOK : string → bool;           (* the name check of FlagSet.Var *)
  setInt : string → option Z;           (* intValue.Set *)
  setInt64 : string → option Z;
  setFloat64 : string → option Z;
  setBool : string → option bool;
  setDuration : string → option Z
}.

(** [os.LookupEnv]: the environment maps names to values; the empty name is
    never found (syscall.Getenv returns not found for a key of length 0). *)
Definition LookupEnv (env : gmap string string) (key : string) : option string :=
  if decide (key = "") then None else env !! key.

Section Resolver.
Context {L : GoLib}.
Variable env : gmap string string.

(** ** [lookupEnv] *)
Definition lookupEnv (envNm : string) (defaultVal : value) : value + error :=
  match LookupEnv env envNm with
  | None => inl defaultVal
  | Some res =>
      match defaultVal with
      | VInt _ =>
          match Atoi res with
          | Some v => inl (VInt v)
          | None => inr (ErrParse envNm res)
          end
      | VInt64 _ =>
          match ParseInt res with
          | Some v => inl (VInt64 v)
          | None => inr (ErrParse envNm res)
          end
      | VFloat64 _ =>
          match ParseFloat res with
          | Some v => inl (VFloat64 v)
          | None => inr (ErrParse envNm res)
          end
      | VBool _ =>
          let bstr := ToUpper res in
          if decide (bstr = "TRUE" ∨ bstr = "1") then inl (VBool true)
          else inl (VBool false)
      | VString _ => inl (VString res)
      | VDuration _ =>
          match ParseDuration res with
          | Some v => inl (VDuration v)
          | None => inr (ErrParse envNm res)
          end
      | _ => inr (ErrLookupUnsupported envNm)
      end
  end.

End Resolver.

(** ** The flag set *)

(** A pointer into the configuration value: the field indices from the
    root struct down to the field (a pointer field is looked through). *)
Abbreviation path := (list nat).

(** [flag.Flag].  [Flag_Ptr] is the storage the flag's value is bound to: a
    field of the configuration value, or [None] for storage outside it. *)
Record Flag := mkFlag {
  Flag_Name : string;
  Flag_Usage : string;
  Flag_Ptr : option path;
  Flag_Kind : kind;
  Flag_Def : value
}.

(** The state the walk threads: the flag set's [formal] map and the names
    handed to [os.LookupEnv], oldest first. *)
Record state := State {
  formal : gmap string Flag;
  lookups : list string
}.

Section Walker.
Context {L : GoLib}.
Variable env : gmap string string.

(** [FlagSet.Var], reached through [IntVar], [StringVar], ...: the name is
    checked, a name already in [formal] panics, otherwise the flag is
    added.  (The [XxxVar] caller has stored the default through the
    pointer before; see [scalarStep].) *)
Definition Var (k : kind) (x : path) (name : string) (d : value)
    (usage : string) (st : state) : state * option failure :=
  if negb (flagNameOK name) then (st, Some (Panic (PanicBadName name)))
  else match formal st !! name with
       | Some _ => (st, Some (Panic (PanicRedefined name)))
       | None =>
           (State (<[name := mkFlag name usage (Some x) k d]> (formal st))
                  (lookups st), None)
       end.

(** Lines 126-134: the flag name of a field. *)
Definition flagNameOf (pfx : string) (fi : finfo) : string :=
  let flagTag := fst (Lookup (Tag fi) "flag") in
  if decide (flagTag ≠ "") then ToKebab pfx +:+ flagTag
  else ToKebab pfx +:+ ToKebab (Name fi).

(** Lines 141-145: the prefix handed to the fields of a nested struct. *)
Definition childPrefix (flagName : string) (fi : finfo) : string :=
  let '(flagTag, flagTagOK) := Lookup (Tag fi) "flag" in
  if flagTagOK && bool_decide (flagTag = "") then "" else flagName +:+ "-".

(** Lines 160-166: the environment name of a scalar field. *)
Definition envNameOf (flagName : string) (fi : finfo) : string :=
  let '(envTag, envTagOK) := Lookup (Tag fi) "env" in
  if envTagOK then envTag else ToScreamingSnake flagName.

(** Lines 167-174: the default of a scalar field, and the state with the
    lookup recorded when there is one. *)
Definition resolveDefault (flagName : string) (fi : finfo) (defaultVal : value)
    (st : state) : (value + error) * state :=
  let envTag := fst (Lookup (Tag fi) "env") in
  let envName := envNameOf flagName fi in
  if decide (envTag ≠ "-") then
    (lookupEnv env envName defaultVal,
     State (formal st) (lookups st ++ [envName]))
  else (inl defaultVal, st).

(** [flagset.IntVar(x, flagName, defaultVal.(int), flagUsage)] and its five
    siblings, [k] telling which: the type assertion on [defaultVal] panics
    when it holds another type; [XxxVar] stores the default through [x]
    and then calls [Var].  [fv] is the value of the field before. *)
Definition XxxVar (k : kind) (x : path) (flagName : string)
    (defaultVal : value) (flagUsage : string) (fv : value) (st : state)
    : value * state * option failure :=
  if decide (kindOf defaultVal = Some k) then
    let '(st', r) := Var k x flagName defaultVal flagUsage st in
    (defaultVal, st', r)
  else (fv, st, Some (Panic PanicAssert)).

(** Line 183: the case that [switch field.Type.String()] takes, by the
    type it registers; [None] is the default case.  The switch compares
    the printed name only. *)
Definition typeSwitch (ty : string) : option kind :=
  if decide (ty = "int") then Some KInt
  else if decide (ty = "int64") then Some KInt64
  else if decide (ty = "float64") then Some KFloat64
  else if decide (ty = "string") then Some KString
  else if decide (ty = "bool") then Some KBool
  else if decide (ty = "time.Duration") then Some KDuration
  else None.

(** The body of a case, lines 185-186 and their like, [k] telling which:
    [x := fValue.Addr().Interface().( *T)] panics unless the field is of
    the type T itself, which a type that only prints as T is not; then
    [XxxVar] is called. *)
Definition switchCase (k : kind) (x : path) (flagName : string)
    (defaultVal : value) (flagUsage : string) (fv : value) (st : state)
    : value * state * option failure :=
  if decide (kindOf fv = Some k) then
    XxxVar k x flagName defaultVal flagUsage fv st
  else (fv, st, Some (Panic PanicAssert)).

(** Lines 159-204: a scalar field.  [x] is [fValue.Addr()].  The field is
    addressable, being a field of [v.Elem()], so line 179 never fires.  The
    switch is on [field.Type.String()]. *)
Definition scalarStep (flagName : string) (x : path) (fi : finfo) (fv : value)
    (st : state) : value * state * option failure :=
  match resolveDefault flagName fi (Interface fv) st with
  | (inr e, st1) => (fv, st1, Some (Err e))
  | (inl defaultVal, st1) =>
      let flagUsage := Get (Tag fi) "usage" in
      match typeSwitch (TypeString fv) with
      | Some k => switchCase k x flagName defaultVal flagUsage fv st1
      | None => (fv, st1, Some (Err (ErrUnsupportedStructType (TypeString fv))))
      end
  end.

(** Line 153: an error of a nested walk is wrapped with the field's name. *)
Definition fieldFailure (fi : finfo) (r : option failure) : option failure :=
  match r with
  | Some (Err e) => Some (Err (ErrFieldFailure e (Name fi)))
  | _ => r
  end.

Section Loop.
Variable rec : value → string → path → state → value * state * option failure.

(** The body of the loop at field [i]: the new value of the field, the new
    state, and [None] to go on with the next field ([continue] or the end
    of the body) or [Some f] to stop. *)
Definition fieldStep (pfx : string) (here : path) (i : nat) (fi : finfo)
    (fv : value) (st : state) : value * state * option failure :=
  if negb (Exported fi) then (fv, st, None)
  else
    let flagName := flagNameOf pfx fi in
    if decide (fst (Lookup (Tag fi) "flag") = "-") then (fv, st, None)
    else
      match fv with
      | VPtr None => (fv, st, None)
      | VPtr (Some t) =>
          match t with
          | VStruct _ =>
              let '(t', st', r) :=
                rec t (childPrefix flagName fi) (here ++ [i]) st in
              (VPtr (Some t'), st', fieldFailure fi r)
          | _ => (fv, st, None)
          end
      | VStruct _ =>
          let '(fv', st', r) :=
            rec fv (childPrefix flagName fi) (here ++ [i]) st in
          (fv', st', fieldFailure fi r)
      | _ => scalarStep flagName (here ++ [i]) fi fv st
      end.

(** The loop of [reflectStruct] from field [i] on. *)
Fixpoint loopFields (pfx : string) (here : path) (fs : fields) (i : nat)
    (st : state) {struct fs} : fields * state * option failure :=
  match fs with
  | [] => ([], st, None)
  | (fi, fv) :: rest =>
      let '(fv', st1, r) := fieldStep pfx here i fi fv st in
      match r with
      | Some f => ((fi, fv') :: rest, st1, Some f)
      | None =>
          let '(rest', st2, r2) := loopFields pfx here rest (S i) st1 in
          ((fi, fv') :: rest', st2, r2)
      end
  end.

End Loop.

(** ** [reflectStruct]

    [v] is the target of the pointer the source receives ([v.Elem()]);
    [NumField] panics when it is not a struct.  The result is the target
    after the walk, the state, and how the call ended ([None]: nil). *)
Fixpoint reflectStruct (v : value) (pfx : string) (here : path) (st : state)
    {struct v} : value * state * option failure :=
  match v with
  | VStruct fs =>
      let '(fs', st', r) := loopFields reflectStruct pfx here fs 0%nat st in
      (VStruct fs', st', r)
  | _ => (v, st, Some (Panic PanicNumField))
  end.

Definition reflectFields := loopFields reflectStruct.

(** ** [readConfig] and [readConfigWithFlagset] *)
Definition readConfig (cfg : value) (st : state)
    : value * state * option failure :=
  match cfg with
  | VPtr (Some t) =>
      let '(t', st', r) := reflectStruct t "" [] st in
      (VPtr (Some t'), st', r)
  | _ => (cfg, st, Some (Err ErrNotStructPtr))
  end.

Definition readConfigWithFlagset := readConfig.

End Walker.

(** ** Reading and writing through a path *)

(** The fields a path can go into: those of a struct, or of the struct a
    pointer leads to. *)
Definition fieldsOf (v : value) : option fields :=
  match v with
  | VStruct fs => Some fs
  | VPtr (Some (VStruct fs)) => Some fs
  | _ => None
  end.

Definition withFields (v : value) (fs : fields) : value :=
  match v with
  | VStruct _ => VStruct fs
  | VPtr (Some (VStruct _)) => VPtr (Some (VStruct fs))
  | _ => v
  end.

(** The value at the end of a path. *)
Fixpoint getp (p : path) (v : value) : option value :=
  match p with
  | [] => Some v
  | i :: p' =>
      match fieldsOf v with
      | Some fs =>
          match fs !! i with
          | Some f => getp p' f.2
          | None => None
          end
      | None => None
      end
  end.

(** The field (descriptor and value) at the end of a path. *)
Fixpoint getf (p : path) (v : value) : option (finfo * value) :=
  match p with
  | [] => None
  | i :: p' =>
      match fieldsOf v with
      | Some fs =>
          match fs !! i with
          | Some f => match p' with [] => Some f | _ => getf p' f.2 end
          | None => None
          end
      | None => None
      end
  end.

(** [*x = d] for the pointer [x] at path [p]. *)
Fixpoint setp (p : path) (d : value) (v : value) : value :=
  match p with
  | [] => d
  | i :: p' =>
      match fieldsOf v with
      | Some fs => withFields v (alter (prod_map id (setp p' d)) i fs)
      | None => v
      end
  end.

Section Entry.
Context {L : GoLib}.
Variable env : gmap string string.

(** ** [flag.Parse] *)

(** Modelled from the spec: the [Set] method of the flag package's value
    of kind [k] (the package is a collaborator outside the repository);
    a string flag takes the text as it is. *)
Definition flagSet (k : kind) (s : string) : option value :=
  match k with
  | KInt => VInt <$> setInt s
  | KInt64 => VInt64 <$> setInt64 s
  | KFloat64 => VFloat64 <$> setFloat64 s
  | KString => Some (VString s)
  | KBool => VBool <$> setBool s
  | KDuration => VDuration <$> setDuration s
  end.

(** The value of a flag is stored through its pointer; storage outside the
    configuration is not followed. *)
Definition store (F : Flag) (d : value) (cfg : value) : value :=
  match Flag_Ptr F with
  | Some p => setp p d cfg
  | None => cfg
  end.

(** Modelled from the spec: [flag.Parse], of the flag package, a
    collaborator outside the repository (section 6:
    [parseAll(argumentVector)]).  The argument vector is taken as the
    settings the parser reads off it, in order: pairs of a flag name and
    the text given for it.  A name that is not registered or a text its
    type does not accept ends the process (the command-line flag set is
    ExitOnError); otherwise the value is stored through the flag's
    pointer. *)
Fixpoint Parse (fl : gmap string Flag) (args : list (string * string))
    (cfg : value) : value * option failure :=
  match args with
  | [] => (cfg, None)
  | (name, text) :: args' =>
      match fl !! name with
      | None => (cfg, Some Exit)
      | Some F =>
          match flagSet (Flag_Kind F) text with
          | None => (cfg, Some Exit)
          | Some d => Parse fl args' (store F d cfg)
          end
      end
  end.

(** ** [ReadConfig]

    [st] is the state of [flag.CommandLine] before the call, [args] the
    settings on the command line. *)
Definition ReadConfig (cfg : value) (st : state) (args : list (string * string))
    : value * state * option failure :=
  let '(cfg1, st1, r) := readConfigWithFlagset env cfg st in
  match r with
  | Some f => (cfg1, st1, Some f)
  | None =>
      let '(cfg2, r2) := Parse (formal st1) args cfg1 in
      (cfg2, st1, r2)
  end.

End Entry.

(** ** A stand-in for the collaborators

    The theorems below hold for every [GoLib]; the tests of the repository
    and the examples are run with this one. *)
Module Sample.

Definition isCap (c : ascii) : bool :=
  let n := N_of_ascii c in ((65 <=? n) && (n <=? 90))%N.
Definition isLow (c : ascii) : bool :=
  let n := N_of_ascii c in ((97 <=? n) && (n <=? 122))%N.
Definition isNum (c : ascii) : bool :=
  let n := N_of_ascii c in ((48 <=? n) && (n <=? 57))%N.
Definition isSep (c : ascii) : bool :=
  bool_decide (c = " "%char ∨ c = "_"%char ∨ c = "-"%char ∨ c = "."%char).

(** Modelled from the spec: the case conversion of strcase, a package
    outside the repository, after section 4.1: the text is split at the
    changes of case and at separators, a run of capitals is one token, a
    capital followed by a small letter starts a token; the tokens are
    joined by [delim], in capitals when [screaming].  It agrees with the
    table of the test "Spelling". *)
Fixpoint delimited (delim : ascii) (screaming : bool) (prevIsCap : bool)
    (s : string) : string :=
  match s with
  | EmptyString => EmptyString
  | String v0 s' =>
      let v := if isLow v0 && screaming then upperByte v0
               else if isCap v0 && negb screaming then lowerByte v0 else v0 in
      let rest := delimited delim screaming (isCap v0) s' in
      let plain := if isSep v then String delim rest else String v rest in
      match s' with
      | EmptyString => plain
      | String next _ =>
          if (isCap v0 && (isLow next || isNum next))
             || (isLow v0 && (isCap next || isNum next))
             || (isNum v0 && (isCap next || isLow next))
          then
            let tail := if isLow v0 || isNum v0 || isNum next
                        then String delim rest else rest in
            if isCap v0 && isLow next && prevIsCap
            then String delim (String v tail) else String v tail
          else plain
      end
  end.

(** Modelled from the spec: the integer parsers of strconv and of the flag
    package read here a decimal integer in the range of int64; the
    stand-in reads floats as their bit pattern and durations as their
    nanoseconds in the same notation. *)
Fixpoint digits (s : string) (acc : Z) : option Z :=
  match s with
  | EmptyString => Some acc
  | String c s' =>
      if isNum c then digits s' (10 * acc + Z.of_N (N_of_ascii c) - 48)
      else None
  end.

Definition inInt64 (o : option Z) : option Z :=
  match o with
  | Some n => if decide (- 2 ^ 63 ≤ n < 2 ^ 63) then Some n else None
  | None => None
  end.

Definition decimal (s : string) : option Z :=
  match s with
  | EmptyString => None
  | String "-" (String c s' as t) => inInt64 (Z.opp <$> digits t 0)
  | String "+" (String c s' as t) => inInt64 (digits t 0)
  | _ => inInt64 (digits s 0)
  end.

(** The spellings of [strconv.ParseBool]. *)
Definition parseBool (s : string) : option bool :=
  if bool_decide (s ∈ ["1"; "t"; "T"; "TRUE"; "true"; "True"]) then Some true
  else if bool_decide (s ∈ ["0"; "f"; "F"; "FALSE"; "false"; "False"])
       then Some false
       else None.

(** The check of [FlagSet.Var]: no leading [-], no [=]. *)
Definition nameOK (s : string) : bool :=
  match s with
  | String "-" _ => false
  | _ => bool_decide ("="%char ∉ list_ascii_of_string s)
  end.

#[export] Instance lib : GoLib := {|
  ToKebab := delimited "-" false false;
  ToScreamingSnake := delimited "_" true false;
  Atoi := decimal;
  ParseInt := decimal;
  ParseFloat := decimal;
  ParseDuration := decimal;
  flagNameOK := nameOK;
  setInt := decimal;
  setInt64 := decimal;
  setFloat64 := decimal;
  setBool := parseBool;
  setDuration := decimal
|}.

Definition noTag : list (string * string) := [].
Definition st0 : state := State ∅ [].

(** The configuration of the test "Basic". *)
Definition MyConfig (first last : string) (age : Z) (swimmer debug : bool)
    : value :=
  VPtr (Some (VStruct [
    (Finfo "FirstName" true
       [("flag", "first_name"); ("usage", "first name of user")],
     VString first);
    (Finfo "LastName" true [("usage", "last name of user")], VString last);
    (Finfo "Age" true [("usage", "User's age in dog years")], VInt age);
    (Finfo "Swimmer" true noTag, VBool swimmer);
    (Finfo "Debug" true [("env", "-")], VBool debug)])).

Definition basicEnv : gmap string string :=
  <["SWIMMER" := "true"]> (<["DEBUG" := "true"]> ∅).

Definition mixedEnv : gmap string string := <["SWIMMER" := "tRuE"]> ∅.

(** The configuration of the test "Nested structs". *)
Definition Ss2 (street zip : string) : value :=
  VStruct [(Finfo "Street" true noTag, VString street);
           (Finfo "Zip" true [("flag", "postcode")], VString zip)].

Definition Ss1 (name : string) (addr : value) (addr2 : option value) : value :=
  VPtr (Some (VStruct [
    (Finfo "Name" true noTag, VString name);
    (Finfo "Addr" true noTag, addr);
    (Finfo "Addr2" true [("flag", "")], VPtr addr2)])).

Definition nestedEnv : gmap string string :=
  <["ADDR_STREET" := "145 Hogarth Ln"]> (<["POSTCODE" := "w68rx"]> ∅).

(** The fields and states the theorems are run on below. *)
Definition addr2 : finfo := Finfo "Addr2" true [("flag", "")].

Definition lastName : finfo :=
  Finfo "LastName" true [("usage", "last name of user")].

Definition quiet : finfo := Finfo "Quiet" true [("env", "")].



Definition badEnv : gmap string string := <["ADDR_NUM" := "x"]> ∅.
Definition nameField : fields := [(Finfo "Name" true noTag, VString "")].
Definition addr : finfo := Finfo "Addr" true noTag.
Definition addrValue : value :=
  VStruct [(Finfo "Num" true noTag, VInt 0); (Finfo "Zip" true noTag, VString "")].
Definition lastField : fields := [(Finfo "Last" true noTag, VString "")].
Definition afterName : state :=
  State (<["name" := mkFlag "name" "" (Some [0%nat]) KString (VString "")]> ∅)
        ["NAME"].
Definition afterNum : state :=
  State (formal afterName) ["NAME"; "ADDR_NUM"].

Definition basicArgs : list (string * string) :=
  [("last-name", "Smith"); ("age", "7")].
Definition basicCfg : value := MyConfig "John" "" 0 false false.
Definition swimmerFlag : Flag :=
  mkFlag "swimmer" "" (Some [3%nat]) KBool (VBool true).
Definition ageFlag : Flag :=
  mkFlag "age" "User's age in dog years" (Some [2%nat]) KInt (VInt 0).

(** The fields of the struct of the test "Nested structs". *)
Definition nestedFields : fields :=
  [(Finfo "Name" true noTag, VString "");
   (Finfo "Addr" true noTag, Ss2 "" "");
   (Finfo "Addr2" true [("flag", "")], VPtr (Some (Ss2 "" "")))].

(** The struct of the test "Supported types": an unexported field, three
    supported ones, and a pointer to a client annotated [flag:"-"]. *)
Definition DurT : value :=
  VPtr (Some (VStruct [
    (Finfo "unexportedNotSet" false noTag, VDuration 0);
    (Finfo "Exported" true noTag, VDuration 1000000000);
    (Finfo "FloatT" true noTag, VFloat64 4614256650576692846);
    (Finfo "IntT" true noTag, VInt64 123456789);
    (Finfo "Client" true [("flag", "-")],
     VPtr (Some (VStruct [(Finfo "Timeout" true noTag, VDuration 0)])))])).

Definition ageEnv : gmap string string := <["AGE" := "42"]> ∅.

Definition firstName : finfo :=
  Finfo "FirstName" true
    [("flag", "first_name"); ("usage", "first name of user")].

Definition verbose : finfo := Finfo "Verbose" true [("flag", "")].

Definition failingFields : fields := nameField ++ (addr, addrValue) :: lastField.

(** A field of the type [Duration] of another package named [time]. *)
Definition foreignWait : fields :=
  [(Finfo "Wait" true noTag, VOther "time.Duration")].

End Sample.

(** ** Vocabulary of the properties *)

(** The errors a scalar step can return. *)
Definition leafError (e : error) : Prop :=
  match e with
  | ErrParse _ _ | ErrLookupUnsupported _ | ErrUnsupportedStructType _ => True
  | _ => False
  end.

(** An error wrapped with field names, the outermost first. *)
Fixpoint wrapTrail (names : list string) (e : error) : error :=
  match names with
  | [] => e
  | n :: names' => ErrFieldFailure (wrapTrail names' e) n
  end.

(** The names of the fields a path goes through. *)
Fixpoint namesAlong (r : path) (v : value) : option (list string) :=
  match r with
  | [] => Some []
  | i :: r' =>
      match fieldsOf v with
      | Some fs =>
          match fs !! i with
          | Some f => cons (Name f.1) <$> namesAlong r' f.2
          | None => None
          end
      | None => None
      end
  end.

(** The text the command line gives for a flag: that of its last setting. *)
Fixpoint supplied (name : string) (args : list (string * string))
    : option string :=
  match args with
  | [] => None
  | (m, text) :: args' =>
      match supplied name args' with
      | Some t => Some t
      | None => if decide (m = name) then Some text else None
      end
  end.

(** The nested structs of a list of fields: inline, or behind a pointer. *)
Definition nestedIn (sub : fields) (fs : fields) : Prop :=
  ∃ fi, (fi, VStruct sub) ∈ fs ∨ (fi, VPtr (Some (VStruct sub))) ∈ fs.

(** A path that ends at a value of one of the six supported types. *)
Definition Leaf (p : path) (v : value) : Prop :=
  ∃ d k, getp p v = Some d ∧ kindOf d = Some k.

(** The flags bound to fields of [v] point at values of their type. *)
Definition WellBound (fl : gmap string Flag) (v : value) : Prop :=
  ∀ n F p, fl !! n = Some F → Flag_Ptr F = Some p →
    ∃ d, getp p v = Some d ∧ kindOf d = Some (Flag_Kind F).

(** No two flags are bound to the same field. *)
Definition Separate (fl : gmap string Flag) : Prop :=
  ∀ n1 n2 F1 F2 p, fl !! n1 = Some F1 → fl !! n2 = Some F2 →
    Flag_Ptr F1 = Some p → Flag_Ptr F2 = Some p → n1 = n2.

Section Resolved.
Context {L : GoLib}.
Variable env : gmap string string.

(** [F], registered under [n], is bound to the scalar field at path [r] of
    [v]: [v'], the value after the walk, holds the flag's default there,
    which is the value [v] held, or what the resolver made of it. *)
Definition Bound (n : string) (F : Flag) (r : path) (v v' : value) : Prop :=
  ∃ fi d,
    getf r v = Some (fi, d)
    ∧ getp r v' = Some (Flag_Def F)
    ∧ kindOf d = Some (Flag_Kind F)
    ∧ kindOf (Flag_Def F) = Some (Flag_Kind F)
    ∧ Flag_Name F = n
    ∧ (fst (Lookup (Tag fi) "env") = "-" → Flag_Def F = d)
    ∧ (fst (Lookup (Tag fi) "env") ≠ "-" →
       lookupEnv env (envNameOf n fi) d = inl (Flag_Def F)).

(** What a walk (or a part of one) from [st] to [st'] that turns [v] into
    [v'] has done: the flags of [st] are kept, each new flag is bound to a
    field whose path from [here] starts with an index in [I], and no two
    new flags share a field. *)
Definition WalkPost (I : nat → Prop) (here : path) (v v' : value)
    (st st' : state) : Prop :=
  formal st ⊆ formal st'
  ∧ (∀ n F, formal st' !! n = Some F → formal st !! n = None →
     ∃ j r, I j ∧ Flag_Ptr F = Some (here ++ j :: r) ∧ Bound n F (j :: r) v v')
  ∧ (∀ n1 n2 F1 F2,
       formal st' !! n1 = Some F1 → formal st !! n1 = None →
       formal st' !! n2 = Some F2 → formal st !! n2 = None →
       Flag_Ptr F1 = Flag_Ptr F2 → n1 = n2).

(** The walk of a struct, when it returns nil, has done that. *)
Definition WalkOK (sub : fields) : Prop :=
  ∀ pfx here st v' st',
    reflectStruct env (VStruct sub) pfx here st = (v', st', None) →
    WalkPost (λ _, True) here (VStruct sub) v' st st'.

End Resolved.

(** ** Vocabulary of the further properties *)

(** A value with its scalars blanked: what is left is the structure, the
    field descriptors, the pointers and the types. *)
Fixpoint skeleton (v : value) : value :=
  match v with
  | VInt _ => VInt 0
  | VInt64 _ => VInt64 0
  | VFloat64 _ => VFloat64 0
  | VString _ => VString ""
  | VBool _ => VBool false
  | VDuration _ => VDuration 0
  | VStruct fs => VStruct (map (λ f, (f.1, skeleton f.2)) fs)
  | VPtr (Some t) => VPtr (Some (skeleton t))
  | VPtr None => VPtr None
  | VIface ty dyn => VIface ty dyn
  | VOther ty => VOther ty
  end.

(** A field that reaches the scalar part of the loop body: where it is,
    the flag name computed for it, its descriptor and value, and the names
    of the nested fields around it, the outermost first. *)
Record leafField := LeafField {
  leaf_path : path;
  leaf_name : string;
  leaf_info : finfo;
  leaf_val : value;
  leaf_trail : list string
}.

Section Leaves.
Context {L : GoLib}.

Section LeavesLoop.
Variable rec : value → string → path → list string → list leafField.

(** The leaf fields under field [i], following the case analysis of
    [fieldStep]. *)
Definition leavesStep (pfx : string) (here : path) (trail : list string)
    (i : nat) (fi : finfo) (fv : value) : list leafField :=
  if negb (Exported fi) then []
  else
    let flagName := flagNameOf pfx fi in
    if decide (fst (Lookup (Tag fi) "flag") = "-") then []
    else
      match fv with
      | VPtr None => []
      | VPtr (Some t) =>
          match t with
          | VStruct _ =>
              rec t (childPrefix flagName fi) (here ++ [i])
                  (trail ++ [Name fi])
          | _ => []
          end
      | VStruct _ =>
          rec fv (childPrefix flagName fi) (here ++ [i]) (trail ++ [Name fi])
      | _ => [LeafField (here ++ [i]) flagName fi fv trail]
      end.

Fixpoint leavesLoop (pfx : string) (here : path) (trail : list string)
    (fs : fields) (i : nat) {struct fs} : list leafField :=
  match fs with
  | [] => []
  | (fi, fv) :: rest =>
      leavesStep pfx here trail i fi fv
      ++ leavesLoop pfx here trail rest (S i)
  end.

End LeavesLoop.

(** The leaf fields of a struct, in declaration order, depth first. *)
Fixpoint leavesOf (v : value) (pfx : string) (here : path)
    (trail : list string) {struct v} : list leafField :=
  match v with
  | VStruct fs => leavesLoop leavesOf pfx here trail fs 0%nat
  | _ => []
  end.

Variable env : gmap string string.

(** A failure seen from outside the nested fields of [trail]. *)
Definition trailFailure (trail : list string) (f : failure) : failure :=
  match f with
  | Err e => Err (wrapTrail trail e)
  | _ => f
  end.

(** The scalar steps of a list of leaf fields, one after the other, up to
    the first that fails. *)
Fixpoint runLeaves (ls : list leafField) (st : state)
    : state * option failure :=
  match ls with
  | [] => (st, None)
  | l :: ls' =>
      let '(_, st1, r) :=
        scalarStep env (leaf_name l) (leaf_path l) (leaf_info l) (leaf_val l)
                   st in
      match r with
      | Some f => (st1, Some (trailFailure (leaf_trail l) f))
      | None => runLeaves ls' st1
      end
  end.

(** The walk of a struct ends in the state, and with the failure, of the
    run over its leaf fields. *)
Definition FlatOK (sub : fields) : Prop :=
  ∀ pfx here trail st v' st' r,
    reflectStruct env (VStruct sub) pfx here st = (v', st', r) →
    runLeaves (leavesOf (VStruct sub) pfx here trail) st
    = (st', trailFailure trail <$> r).

(** The flag a leaf field is registered as, [d] being its default. *)
Definition flagOf (l : leafField) (d : value) : option Flag :=
  k ← kindOf (leaf_val l);
  Some (mkFlag (leaf_name l) (Get (Tag (leaf_info l)) "usage")
               (Some (leaf_path l)) k d).

(** The environment names a list of leaf fields has the resolver asked
    for. *)
Definition envNamesOf (ls : list leafField) : list string :=
  omap (λ l, if decide (fst (Lookup (Tag (leaf_info l)) "env") = "-")
             then None
             else Some (envNameOf (leaf_name l) (leaf_info l))) ls.

(** What the resolver makes of a leaf field. *)
Definition resolved (l : leafField) : value + error :=
  if decide (fst (Lookup (Tag (leaf_info l)) "env") = "-")
  then inl (leaf_val l)
  else lookupEnv env (envNameOf (leaf_name l) (leaf_info l)) (leaf_val l).

(** A leaf field that can be registered in a flag set [fl]: its type is one
    of the six, the resolver does not fail on it, its flag name is
    acceptable and not in [fl]. *)
Definition registrable (fl : gmap string Flag) (l : leafField) : Prop :=
  is_Some (kindOf (leaf_val l))
  ∧ (∃ d, resolved l = inl d)
  ∧ flagNameOK (leaf_name l) = true
  ∧ fl !! leaf_name l = None.

(** The walk of a struct leaves its structure as it is. *)
Definition SkeletonOK (sub : fields) : Prop :=
  ∀ pfx here st v' st' r,
    reflectStruct env (VStruct sub) pfx here st = (v', st', r) →
    skeleton v' = skeleton (VStruct sub).

(** A walk that returns nil leaves as it is every value it has bound no
    flag to. *)
Definition FrameOK (sub : fields) : Prop :=
  ∀ pfx here st v' st',
    reflectStruct env (VStruct sub) pfx here st = (v', st', None) →
    ∀ r d, getp r (VStruct sub) = Some d → fieldsOf d = None →
      (∀ n F, formal st' !! n = Some F → formal st !! n = None →
         Flag_Ptr F ≠ Some (here ++ r)) →
      getp r v' = Some d.

(** A leaf field after a walk that returned nil: it holds what the
    resolver made of its value. *)
Definition settle (l : leafField) : leafField :=
  LeafField (leaf_path l) (leaf_name l) (leaf_info l)
            (match resolved l with inl d => d | inr _ => leaf_val l end)
            (leaf_trail l).

(** The leaf fields of a struct after a walk that returned nil. *)
Definition AfterOK (sub : fields) : Prop :=
  ∀ pfx here trail st v' st',
    reflectStruct env (VStruct sub) pfx here st = (v', st', None) →
    leavesOf v' pfx here trail
    = map settle (leavesOf (VStruct sub) pfx here trail).

(** The leaf fields after a run: a field that was stepped holds what its
    step left, the fields after one whose step failed are as they were. *)
Fixpoint leavesAfter (ls : list leafField) (st : state) : list leafField :=
  match ls with
  | [] => []
  | l :: ls' =>
      let '(fv', st1, r) :=
        scalarStep env (leaf_name l) (leaf_path l) (leaf_info l) (leaf_val l)
                   st in
      LeafField (leaf_path l) (leaf_name l) (leaf_info l) fv' (leaf_trail l)
      :: match r with
         | Some _ => ls'
         | None => leavesAfter ls' st1
         end
  end.

(** The leaf fields of a struct after its walk, however it ended, are
    those after the run. *)
Definition AfterRunOK (sub : fields) : Prop :=
  ∀ pfx here trail st v' st' r,
    reflectStruct env (VStruct sub) pfx here st = (v', st', r) →
    leavesOf v' pfx here trail
    = leavesAfter (leavesOf (VStruct sub) pfx here trail) st.

(** A leaf field is a field of the struct: its path goes from [here]
    through nested fields, whose names its trail adds to [trail], to the
    field with its descriptor and value. *)
Definition PlacedOK (sub : fields) : Prop :=
  ∀ pfx here trail l,
    l ∈ leavesOf (VStruct sub) pfx here trail →
    ∃ r j names,
      leaf_path l = here ++ r ++ [j]
      ∧ namesAlong r (VStruct sub) = Some names
      ∧ leaf_trail l = trail ++ names
      ∧ getf (r ++ [j]) (VStruct sub) = Some (leaf_info l, leaf_val l).

End Leaves.

(** A field descriptor without its flag annotation. *)
Definition withoutFlagTag (fi : finfo) : finfo :=
  Finfo (Name fi) (Exported fi) (filter (λ kv, kv.1 ≠ "flag") (Tag fi)).

(** [checkFlags] of the tests: every name is the name of one of the
    flags. *)
Fixpoint found (flags : list Flag) (flagName : string) : bool :=
  match flags with
  | [] => false
  | f :: flags' =>
      if decide (Flag_Name f = flagName) then true else found flags' flagName
  end.

Fixpoint checkFlags (flags : list Flag) (names : list string) : bool :=
  match names with
  | [] => true
  | flagName :: names' =>
      if negb (found flags flagName) then false else checkFlags flags names'
  end.

(** * Properties *)

(** ** The tests of the repository, run on the model *)

Module SampleRuns.
Import Sample.

(** The table of the test "Spelling". *)
Example spelling :
  map ToKebab ["SnakeCase"; "Hyphen-Case"; "Underscore_Case"; "FieldAPIKey";
               "FieldURLAddr"; "FieldHTTPServer"]
  = ["snake-case"; "hyphen-case"; "underscore-case"; "field-api-key";
     "field-url-addr"; "field-http-server"]
  ∧ map ToScreamingSnake ["SnakeCase"; "Hyphen-Case"; "Underscore_Case";
                          "FieldAPIKey"; "FieldURLAddr"; "FieldHTTPServer"]
  = ["SNAKE_CASE"; "HYPHEN_CASE"; "UNDERSCORE_CASE"; "FIELD_API_KEY";
     "FIELD_URL_ADDR"; "FIELD_HTTP_SERVER"].
Proof. split; reflexivity. Qed.

(** The test "Basic": the command line sets the last name and the age, the
    environment makes a swimmer, and [env:"-"] keeps DEBUG out. *)
Example basic :
  let '(cfg, st, r) :=
    ReadConfig basicEnv (MyConfig "John" "" 0 false false) st0
      [("last-name", "Smith"); ("age", "7")] in
  cfg = MyConfig "John" "Smith" 7 true false ∧ r = None
  ∧ lookups st = ["FIRST_NAME"; "LAST_NAME"; "AGE"; "SWIMMER"].
Proof. vm_compute. done. Qed.

(** The test "Nested structs": five flags, the fields of [Addr2] without
    prefix. *)
Example nested :
  let '(cfg, st, r) :=
    readConfigWithFlagset nestedEnv (Ss1 "" (Ss2 "" "") (Some (Ss2 "" ""))) st0 in
  cfg = Ss1 "" (Ss2 "145 Hogarth Ln" "") (Some (Ss2 "" "w68rx")) ∧ r = None
  ∧ size (formal st) = 5%nat
  ∧ Forall (λ n, is_Some (formal st !! n))
      ["name"; "street"; "postcode"; "addr-street"; "addr-postcode"].
Proof. vm_compute. repeat split; repeat constructor; eauto. Qed.

End SampleRuns.

(** ** The environment resolver *)

Lemma lowerByte_upperByte (c : ascii) : lowerByte (upperByte c) = lowerByte c.
Proof. destruct c as [[] [] [] [] [] [] [] []]; reflexivity. Qed.

Lemma upperByte_lowerByte (c : ascii) : upperByte (lowerByte c) = upperByte c.
Proof. destruct c as [[] [] [] [] [] [] [] []]; reflexivity. Qed.

Lemma ToLower_ToUpper (s : string) : ToLower (ToUpper s) = ToLower s.
Proof.
  induction s as [|c s IH]; simpl; [done|].
  by rewrite lowerByte_upperByte, IH.
Qed.

Lemma ToUpper_ToLower (s : string) : ToUpper (ToLower s) = ToUpper s.
Proof.
  induction s as [|c s IH]; simpl; [done|].
  by rewrite upperByte_lowerByte, IH.
Qed.

(** Comparing upper-cased strings is comparing them without case. *)
Lemma ToUpper_EqualFold (s t : string) : ToUpper s = ToUpper t ↔ EqualFold s t.
Proof.
  unfold EqualFold. split; intros E.
  - by rewrite <- (ToLower_ToUpper s), E, ToLower_ToUpper.
  - by rewrite <- (ToUpper_ToLower s), E, ToUpper_ToLower.
Qed.

Section ResolverFacts.
Context {L : GoLib}.
Variable env : gmap string string.

Lemma lookupEnv_unset (envNm : string) (d : value) :
  LookupEnv env envNm = None → lookupEnv env envNm d = inl d.
Proof. unfold lookupEnv. by intros ->. Qed.

(** The resolver keeps the type of the default. *)
Lemma lookupEnv_kind (envNm : string) (d x : value) (k : kind) :
  kindOf d = Some k → lookupEnv env envNm d = inl x → kindOf x = Some k.
Proof.
  unfold lookupEnv. destruct (LookupEnv env envNm) as [res|].
  - destruct d; simpl; try done; intros <-; repeat case_match; naive_solver.
  - naive_solver.
Qed.

(** C7.  The resolver, given a boolean default and a variable that is set
    to [raw], never fails: it returns true when [raw] is "true" or "1" up
    to the case of letters, and false for any other text. *)
Theorem lookupEnv_bool (envNm raw : string) (b : bool) :
  LookupEnv env envNm = Some raw →
  lookupEnv env envNm (VBool b)
  = inl (VBool (bool_decide (EqualFold raw "true" ∨ EqualFold raw "1"))).
Proof.
  intros E. unfold lookupEnv. rewrite E.
  assert (ToUpper raw = "TRUE" ∨ ToUpper raw = "1"
          ↔ EqualFold raw "true" ∨ EqualFold raw "1") as Hiff.
  { rewrite <- !ToUpper_EqualFold. done. }
  case_decide as Hd.
  - by rewrite bool_decide_eq_true_2 by (by apply Hiff).
  - by rewrite bool_decide_eq_false_2 by (by rewrite <- Hiff).
Qed.

End ResolverFacts.

Lemma lookupEnv_bool_witness :
  LookupEnv Sample.mixedEnv "SWIMMER" = Some "tRuE"
  ∧ lookupEnv (L := Sample.lib) Sample.mixedEnv "SWIMMER" (VBool false)
    = inl (VBool (bool_decide (EqualFold "tRuE" "true" ∨ EqualFold "tRuE" "1"))).
Proof.
  split; [reflexivity|].
  apply (lookupEnv_bool (L := Sample.lib)). reflexivity.
Defined.

(** ** The entry point *)

Section EntryFacts.
Context {L : GoLib}.
Variable env : gmap string string.

(** What is not a pointer, and a nil pointer, is refused. *)
Lemma readConfig_rejects (cfg : value) (st : state) :
  (∀ t, cfg ≠ VPtr (Some t)) →
  readConfig env cfg st = (cfg, st, Some (Err ErrNotStructPtr)).
Proof. intros Hn. destruct cfg as [| | | | | | |[t|]| |]; naive_solver. Qed.

(** A pointer to anything but a struct passes the check of [readConfig] and
    reaches [NumField]. *)
Lemma readConfig_not_struct (t : value) (st : state) :
  (∀ fs, t ≠ VStruct fs) →
  readConfig env (VPtr (Some t)) st
  = (VPtr (Some t), st, Some (Panic PanicNumField)).
Proof. intros Hn. destruct t; naive_solver. Qed.

(** C2, at the failing input.  A pointer to an int is a non-null pointer
    whose target is not a struct: [readConfig] does not return the error
    "argument is not a struct pointer" for it, the call panics in
    [NumField]. *)
Theorem readConfig_pointer_to_int (st : state) :
  readConfig env (VPtr (Some (VInt 5))) st
  = (VPtr (Some (VInt 5)), st, Some (Panic PanicNumField))
  ∧ readConfig env (VPtr (Some (VInt 5))) st
    ≠ (VPtr (Some (VInt 5)), st, Some (Err ErrNotStructPtr)).
Proof. split; [reflexivity|discriminate]. Qed.

End EntryFacts.

(** ** The scalar part of the loop body *)

(** Each of the six types prints as the name of its case. *)
Lemma typeSwitch_kind (fv : value) (k : kind) :
  kindOf fv = Some k → typeSwitch (TypeString fv) = Some k.
Proof. destruct fv; intros [= <-]; reflexivity. Qed.

Section ScalarFacts.
Context {L : GoLib}.
Variable env : gmap string string.

(** The switch of the scalar step, by the kind of the field. *)
Lemma scalarStep_kind (n : string) (x : path) (fi : finfo) (fv : value)
    (st : state) :
  scalarStep env n x fi fv st
  = match resolveDefault env n fi (Interface fv) st with
    | (inr e, st1) => (fv, st1, Some (Err e))
    | (inl d, st1) =>
        match kindOf fv with
        | Some k =>
            if decide (kindOf d = Some k) then
              let '(st2, r) := Var k x n d (Get (Tag fi) "usage") st1 in
              (d, st2, r)
            else (fv, st1, Some (Panic PanicAssert))
        | None =>
            (fv, st1,
             Some (match typeSwitch (TypeString fv) with
                   | Some _ => Panic PanicAssert
                   | None => Err (ErrUnsupportedStructType (TypeString fv))
                   end))
        end
    end.
Proof.
  unfold scalarStep, switchCase, XxxVar.
  destruct (resolveDefault env n fi (Interface fv) st) as [[d|e] st1]; [|done].
  destruct (kindOf fv) as [k|] eqn:Hk.
  - rewrite (typeSwitch_kind _ _ Hk). by rewrite decide_True.
  - destruct (typeSwitch (TypeString fv)); [|done]. by rewrite decide_False.
Qed.

(** What a scalar step that goes on has done. *)
Lemma scalarStep_ok (n : string) (x : path) (fi : finfo) (fv fv' : value)
    (st st' : state) :
  scalarStep env n x fi fv st = (fv', st', None) →
  ∃ k, kindOf fv = Some k ∧ kindOf fv' = Some k
       ∧ formal st !! n = None ∧ flagNameOK n = true
       ∧ formal st' = <[n := mkFlag n (Get (Tag fi) "usage") (Some x) k fv']>
                        (formal st)
       ∧ (fst (Lookup (Tag fi) "env") = "-" → fv' = fv ∧ lookups st' = lookups st)
       ∧ (fst (Lookup (Tag fi) "env") ≠ "-" →
          lookupEnv env (envNameOf n fi) fv = inl fv'
          ∧ lookups st' = lookups st ++ [envNameOf n fi]).
Proof.
  rewrite scalarStep_kind. unfold resolveDefault.
  case_decide as Henv.
  - destruct (lookupEnv env (envNameOf n fi) (Interface fv)) as [d|e] eqn:El;
      [|done].
    destruct (kindOf fv) as [k|] eqn:Hk; [|done].
    assert (Interface fv = fv) as Hi by (by destruct fv). rewrite Hi in El.
    case_decide as Hd; [|done].
    unfold Var. destruct (flagNameOK n) eqn:Hok; simpl; [|done].
    destruct (formal _ !! n) eqn:Ef; simpl in *; [done|].
    intros [= <- <-]. exists k. simpl. naive_solver.
  - destruct (kindOf fv) as [k|] eqn:Hk; [|done].
    assert (Interface fv = fv) as Hi by (by destruct fv). rewrite Hi.
    rewrite decide_True by done.
    unfold Var. destruct (flagNameOK n) eqn:Hok; simpl; [|done].
    destruct (formal _ !! n) eqn:Ef; simpl in *; [done|].
    intros [= <- <-]. exists k. simpl. naive_solver.
Qed.

Lemma lookupEnv_error (envNm : string) (d : value) (e : error) :
  lookupEnv env envNm d = inr e → leafError e.
Proof.
  unfold lookupEnv. destruct (LookupEnv env envNm); [|done].
  destruct d; repeat case_match; naive_solver.
Qed.

Lemma scalarStep_error (n : string) (x : path) (fi : finfo) (fv fv' : value)
    (st st' : state) (e : error) :
  scalarStep env n x fi fv st = (fv', st', Some (Err e)) → leafError e.
Proof.
  rewrite scalarStep_kind. unfold resolveDefault.
  case_decide as Henv.
  - destruct (lookupEnv _ _ _) as [d|e'] eqn:El.
    + destruct (kindOf fv); [|destruct (typeSwitch _); naive_solver].
      case_decide; [|done]. unfold Var.
      repeat case_match; naive_solver.
    + intros [= <- <- <-]. eauto using lookupEnv_error.
  - destruct (kindOf fv); [|destruct (typeSwitch _); naive_solver].
    case_decide; [|done]. unfold Var. repeat case_match; naive_solver.
Qed.

End ScalarFacts.

(** ** One field of the walk *)

Section StepFacts.
Context {L : GoLib}.
Variable env : gmap string string.
Variable rec : value → string → path → state → value * state * option failure.

(** C8.  A nil pointer field is skipped: the body of the loop leaves the
    field and the state (flags and environment lookups) as they are, and
    the loop goes on with the fields after it. *)
Theorem nil_pointer_skipped (pfx : string) (here : path) (i : nat)
    (fi : finfo) (rest : fields) (st : state) :
  fieldStep env rec pfx here i fi (VPtr None) st = (VPtr None, st, None)
  ∧ loopFields env rec pfx here ((fi, VPtr None) :: rest) i st
    = (let '(rest', st', r) := loopFields env rec pfx here rest (S i) st in
       ((fi, VPtr None) :: rest', st', r)).
Proof.
  assert (fieldStep env rec pfx here i fi (VPtr None) st = (VPtr None, st, None))
    as E.
  { unfold fieldStep. destruct (Exported fi); simpl; [|done]. by case_decide. }
  split; [done|]. simpl. by rewrite E.
Qed.

(** C3.  For a nested struct, inline or behind a pointer, the walk of its
    fields is started with the prefix [flagName-], [flagName] being the
    flag name computed for the field; with a flag annotation that is
    present and empty it is started with the empty prefix, and then (the
    kebab form of the empty string being empty) the flag name of a child is
    its own annotation or the kebab form of its own name. *)
Theorem nested_child_prefix (pfx : string) (here : path) (i : nat)
    (fi : finfo) (sub : fields) (st : state) :
  Exported fi = true →
  fst (Lookup (Tag fi) "flag") ≠ "-" →
  let fpfx := if decide (Lookup (Tag fi) "flag" = ("", true)) then ""
              else flagNameOf pfx fi +:+ "-" in
  fieldStep env rec pfx here i fi (VStruct sub) st
  = (let '(t', st', r) := rec (VStruct sub) fpfx (here ++ [i]) st in
     (t', st', fieldFailure fi r))
  ∧ fieldStep env rec pfx here i fi (VPtr (Some (VStruct sub))) st
    = (let '(t', st', r) := rec (VStruct sub) fpfx (here ++ [i]) st in
       (VPtr (Some t'), st', fieldFailure fi r))
  ∧ (Lookup (Tag fi) "flag" = ("", true) → ToKebab "" = "" →
     fpfx = "" ∧
     ∀ child, flagNameOf fpfx child
              = if decide (fst (Lookup (Tag child) "flag") ≠ "")
                then fst (Lookup (Tag child) "flag")
                else ToKebab (Name child)).
Proof.
  intros Hex Hflag fpfx.
  assert (childPrefix (flagNameOf pfx fi) fi = fpfx) as Hp.
  { unfold childPrefix, fpfx.
    destruct (Lookup (Tag fi) "flag") as [t ok].
    destruct ok; simpl; repeat case_decide; repeat case_bool_decide;
      simplify_eq; done. }
  unfold fieldStep. rewrite Hex. simpl. rewrite !decide_False by done.
  rewrite Hp. split; [done|]. split; [done|].
  intros Hempty Hk. unfold fpfx. rewrite decide_True by done.
  split; [done|]. intros child. unfold flagNameOf. rewrite Hk.
  by case_decide.
Qed.

(** A field that is neither a struct nor a pointer goes to the scalar part
    of the body. *)
Lemma fieldStep_scalar (pfx : string) (here : path) (i : nat)
    (fi : finfo) (fv : value) (st : state) :
  Exported fi = true →
  fst (Lookup (Tag fi) "flag") ≠ "-" →
  (∀ fs, fv ≠ VStruct fs) → (∀ t, fv ≠ VPtr t) →
  fieldStep env rec pfx here i fi fv st
  = scalarStep env (flagNameOf pfx fi) (here ++ [i]) fi fv st.
Proof.
  intros Hex Hflag Hs Hp. unfold fieldStep. rewrite Hex. simpl.
  rewrite decide_False by done. destruct fv; naive_solver.
Qed.


(** C4.  A scalar field of a supported type without flag and env
    annotation: the environment is asked for the upper snake form of the
    flag name, and [Var] is called with the flag name
    [ToKebab pfx ++ ToKebab Name]; when the step goes on, the flag set
    holds the flag under that name. *)
Theorem plain_scalar_names (pfx : string) (here : path) (i : nat)
    (fi : finfo) (fv : value) (k : kind) (st : state) :
  Exported fi = true →
  Lookup (Tag fi) "flag" = ("", false) →
  Lookup (Tag fi) "env" = ("", false) →
  kindOf fv = Some k →
  let flagName := ToKebab pfx +:+ ToKebab (Name fi) in
  let envName := ToScreamingSnake flagName in
  let st1 := State (formal st) (lookups st ++ [envName]) in
  fieldStep env rec pfx here i fi fv st
  = match lookupEnv env envName fv with
    | inr e => (fv, st1, Some (Err e))
    | inl d =>
        let '(st2, r) :=
          Var k (here ++ [i]) flagName d (Get (Tag fi) "usage") st1 in
        (d, st2, r)
    end
  ∧ ∀ fv' st', fieldStep env rec pfx here i fi fv st = (fv', st', None) →
      lookups st' = lookups st ++ [envName]
      ∧ formal st !! flagName = None
      ∧ formal st' !! flagName
        = Some (mkFlag flagName (Get (Tag fi) "usage") (Some (here ++ [i])) k fv').
Proof.
  intros Hex Hflag Henv Hk flagName envName st1.
  assert (fieldStep env rec pfx here i fi fv st
          = match lookupEnv env envName fv with
            | inr e => (fv, st1, Some (Err e))
            | inl d =>
                let '(st2, r) :=
                  Var k (here ++ [i]) flagName d (Get (Tag fi) "usage") st1 in
                (d, st2, r)
            end) as E.
  { unfold fieldStep. rewrite Hex, Hflag. simpl.
    assert (flagNameOf pfx fi = flagName) as ->.
    { unfold flagNameOf. by rewrite Hflag. }
    assert (Interface fv = fv) as Hi by (by destruct fv).
    assert (scalarStep env flagName (here ++ [i]) fi fv st
            = match lookupEnv env envName fv with
              | inr e => (fv, st1, Some (Err e))
              | inl d =>
                  let '(st2, r) :=
                    Var k (here ++ [i]) flagName d (Get (Tag fi) "usage") st1 in
                  (d, st2, r)
              end) as ->.
    { rewrite scalarStep_kind. unfold resolveDefault, envNameOf.
      rewrite Henv, Hi. simpl.
      fold envName. fold st1.
      destruct (lookupEnv env envName fv) as [d|e] eqn:El; [|done].
      rewrite Hk. by rewrite decide_True by eauto using lookupEnv_kind. }
    by destruct fv. }
  split; [done|]. intros fv' st'. rewrite E.
  destruct (lookupEnv env envName fv) as [d|e]; [|done].
  unfold Var. destruct (flagNameOK flagName); simpl; [|done].
  destruct (formal st !! flagName) eqn:Ef; simpl; [done|].
  intros [= <- <-]. simpl. by rewrite lookup_insert_eq.
Qed.

(** C10.  A scalar field of a supported type annotated [env:""]: the
    environment name is the empty string, which no environment has, so the
    default handed to [Var] is the value the field holds; [Var] is called
    with the flag name computed for the field, and registers it when the
    name is acceptable and free. *)
Theorem empty_env_annotation (pfx : string) (here : path) (i : nat)
    (fi : finfo) (fv : value) (k : kind) (st : state) :
  Exported fi = true →
  fst (Lookup (Tag fi) "flag") ≠ "-" →
  Lookup (Tag fi) "env" = ("", true) →
  kindOf fv = Some k →
  let flagName := flagNameOf pfx fi in
  let usage := Get (Tag fi) "usage" in
  let st1 := State (formal st) (lookups st ++ [""]) in
  envNameOf flagName fi = ""
  ∧ lookupEnv env "" fv = inl fv
  ∧ fieldStep env rec pfx here i fi fv st
    = (let '(st2, r) := Var k (here ++ [i]) flagName fv usage st1 in
       (fv, st2, r))
  ∧ (flagNameOK flagName = true → formal st !! flagName = None →
     fieldStep env rec pfx here i fi fv st
     = (fv,
        State (<[flagName := mkFlag flagName usage (Some (here ++ [i])) k fv]>
                 (formal st))
              (lookups st ++ [""]),
        None)).
Proof.
  intros Hex Hflag Henv Hk flagName usage st1.
  assert (envNameOf flagName fi = "") as He.
  { unfold envNameOf. by rewrite Henv. }
  assert (lookupEnv env "" fv = inl fv) as Hl by done.
  assert (fieldStep env rec pfx here i fi fv st
          = (let '(st2, r) := Var k (here ++ [i]) flagName fv usage st1 in
             (fv, st2, r))) as E.
  { rewrite fieldStep_scalar by (try done; intros ? ->; done).
    rewrite scalarStep_kind. unfold resolveDefault. fold flagName.
    rewrite He, Henv. simpl.
    assert (Interface fv = fv) as -> by (by destruct fv).
    rewrite Hk. by rewrite decide_True. }
  repeat split; try done.
  intros Hok Hfree. rewrite E. unfold Var. rewrite Hok. simpl. by rewrite Hfree.
Qed.


End StepFacts.


(** ** Induction over the structs a walk visits *)

Lemma value_ind' (P : value → Prop)
    (Hint : ∀ n, P (VInt n)) (Hint64 : ∀ n, P (VInt64 n))
    (Hfloat : ∀ b, P (VFloat64 b)) (Hstring : ∀ s, P (VString s))
    (Hbool : ∀ b, P (VBool b)) (Hdur : ∀ d, P (VDuration d))
    (Hstruct : ∀ fs, Forall (λ f, P f.2) fs → P (VStruct fs))
    (Hnil : P (VPtr None)) (Hptr : ∀ t, P t → P (VPtr (Some t)))
    (Hifn : ∀ ty, P (VIface ty None))
    (Hif : ∀ ty d, P d → P (VIface ty (Some d)))
    (Hother : ∀ ty, P (VOther ty)) :
  ∀ v, P v.
Proof.
  fix IH 1. intros [n|n|b|s|b|d|fs|[t|]|ty [d|]|ty].
  - apply Hint.
  - apply Hint64.
  - apply Hfloat.
  - apply Hstring.
  - apply Hbool.
  - apply Hdur.
  - apply Hstruct. induction fs as [|[fi fv] fs IHfs]; constructor.
    + apply IH.
    + apply IHfs.
  - apply Hptr, IH.
  - apply Hnil.
  - apply Hif, IH.
  - apply Hifn.
  - apply Hother.
Qed.

Lemma walk_ind (P : fields → Prop) :
  (∀ fs, (∀ sub, nestedIn sub fs → P sub) → P fs) → ∀ fs, P fs.
Proof.
  intros Hstep.
  assert (∀ v fs, v = VStruct fs ∨ v = VPtr (Some (VStruct fs)) → P fs) as HQ.
  { induction v as [| | | | | |fs0 IHfs| |t IHt| | |] using value_ind';
      intros fs [E|E]; try discriminate.
    - injection E as ->. apply Hstep. intros sub [fi Hin].
      rewrite Forall_forall in IHfs.
      destruct Hin as [Hin|Hin]; apply (IHfs _ Hin sub); simpl; auto.
    - injection E as ->. apply (IHt fs). auto. }
  intros fs. apply (HQ (VStruct fs)). auto.
Qed.

(** ** The loop *)

Section LoopFacts.
Context {L : GoLib}.
Variable env : gmap string string.
Variable rec : value → string → path → state → value * state * option failure.

Lemma loopFields_cons (pfx : string) (here : path) (fi : finfo) (fv : value)
    (rest : fields) (i : nat) (st : state) :
  loopFields env rec pfx here ((fi, fv) :: rest) i st
  = (let '(fv', st1, r) := fieldStep env rec pfx here i fi fv st in
     match r with
     | Some f => ((fi, fv') :: rest, st1, Some f)
     | None =>
         let '(rest', st2, r2) := loopFields env rec pfx here rest (S i) st1 in
         ((fi, fv') :: rest', st2, r2)
     end).
Proof. reflexivity. Qed.

(** Fields that are walked without failure are followed by the loop over
    the fields after them. *)
Lemma loopFields_app (pfx : string) (here : path) (pre fs pre' : fields)
    (i : nat) (st st1 : state) :
  loopFields env rec pfx here pre i st = (pre', st1, None) →
  loopFields env rec pfx here (pre ++ fs) i st
  = (let '(fs', st', r) :=
       loopFields env rec pfx here fs (i + length pre)%nat st1 in
     (pre' ++ fs', st', r)).
Proof.
  revert pre' i st. induction pre as [|[fi fv] pre IH]; intros pre' i st.
  - simpl. intros [= <- <-]. rewrite Nat.add_0_r.
    by destruct (loopFields env rec pfx here fs i st) as [[??]?].
  - rewrite <- app_comm_cons, !loopFields_cons.
    destruct (fieldStep env rec pfx here i fi fv st) as [[fv' st2] [f|]];
      [done|].
    destruct (loopFields env rec pfx here pre (S i) st2) as [[pre2 st3] r]
      eqn:Epre.
    intros [= <- <- ->]. rewrite (IH _ _ _ Epre). simpl.
    replace (i + S (length pre))%nat with (S (i + length pre))%nat by lia.
    by destruct (loopFields env rec pfx here fs _ _) as [[??]?].
Qed.

(** The first field whose step fails ends the loop: the fields after it are
    returned as they were and the state is the one the step left. *)
Lemma loopFields_stops (pfx : string) (here : path) (pre post pre' : fields)
    (fi : finfo) (fv fv' : value) (i : nat) (st st1 st' : state) (f : failure) :
  loopFields env rec pfx here pre i st = (pre', st1, None) →
  fieldStep env rec pfx here (i + length pre)%nat fi fv st1 = (fv', st', Some f) →
  loopFields env rec pfx here (pre ++ (fi, fv) :: post) i st
  = (pre' ++ (fi, fv') :: post, st', Some f).
Proof.
  intros Hpre Hstep. rewrite (loopFields_app _ _ _ _ _ _ _ _ Hpre).
  rewrite loopFields_cons, Hstep. done.
Qed.

(** A loop that fails has stopped at such a field. *)
Lemma loopFields_failed (pfx : string) (here : path) (fs fs' : fields)
    (i : nat) (st st' : state) (f : failure) :
  loopFields env rec pfx here fs i st = (fs', st', Some f) →
  ∃ pre fi fv post pre' fv' st1,
    fs = pre ++ (fi, fv) :: post
    ∧ loopFields env rec pfx here pre i st = (pre', st1, None)
    ∧ fieldStep env rec pfx here (i + length pre)%nat fi fv st1
      = (fv', st', Some f)
    ∧ fs' = pre' ++ (fi, fv') :: post.
Proof.
  revert fs' i st. induction fs as [|[fi fv] fs IH]; intros fs' i st.
  - done.
  - rewrite loopFields_cons.
    destruct (fieldStep env rec pfx here i fi fv st) as [[fv' st2] [f'|]]
      eqn:Estep.
    + intros [= <- <- <-]. exists [], fi, fv, fs, [], fv', st. simpl.
      rewrite Nat.add_0_r. done.
    + destruct (loopFields env rec pfx here fs (S i) st2) as [[fs2 st3] r]
        eqn:Eloop.
      intros [= <- <- ->].
      destruct (IH _ _ _ Eloop)
        as (pre & fi1 & fv1 & post & pre' & fv1' & st1 & -> & Hpre & Hstep & ->).
      exists ((fi, fv) :: pre), fi1, fv1, post, ((fi, fv') :: pre'), fv1', st1.
      rewrite <- !app_comm_cons, loopFields_cons, Estep, Hpre. simpl.
      replace (i + S (length pre))%nat with (S i + length pre)%nat by lia.
      done.
Qed.

End LoopFacts.

(** ** The ways a step ends *)

Section StepCases.
Context {L : GoLib}.
Variable env : gmap string string.
Variable rec : value → string → path → state → value * state * option failure.

(** A step that returns an error is the step of a nested struct whose walk
    returned one, or of a scalar field. *)
Lemma fieldStep_error (pfx : string) (here : path) (i : nat) (fi : finfo)
    (fv fv' : value) (st st' : state) (e : error) :
  fieldStep env rec pfx here i fi fv st = (fv', st', Some (Err e)) →
  (∃ sub t' e1,
      (fv = VStruct sub ∨ fv = VPtr (Some (VStruct sub)))
      ∧ rec (VStruct sub) (childPrefix (flagNameOf pfx fi) fi) (here ++ [i]) st
        = (t', st', Some (Err e1))
      ∧ e = ErrFieldFailure e1 (Name fi))
  ∨ ((∀ sub, fv ≠ VStruct sub) ∧ (∀ t, fv ≠ VPtr t)
     ∧ scalarStep env (flagNameOf pfx fi) (here ++ [i]) fi fv st
       = (fv', st', Some (Err e))).
Proof.
  unfold fieldStep. destruct (Exported fi); simpl; [|done].
  case_decide; [done|].
  destruct fv as [| | | | | |sub|[[| | | | | |sub| | |]|]| |];
    try done; try (intros Hs; right; by repeat split).
  - destruct (rec _ _ _ _) as [[t' st1] [[e1| |]|]] eqn:Er; simpl; try done.
    intros [= <- <- <-]. left. exists sub, t', e1. auto.
  - destruct (rec _ _ _ _) as [[t' st1] [[e1| |]|]] eqn:Er; simpl; try done.
    intros [= <- <- <-]. left. exists sub, t', e1. auto.
Qed.

(** A step that goes on has skipped the field, walked a nested struct to
    its end, or registered a scalar field. *)
Lemma fieldStep_ok (pfx : string) (here : path) (i : nat) (fi : finfo)
    (fv fv' : value) (st st' : state) :
  fieldStep env rec pfx here i fi fv st = (fv', st', None) →
  (fv' = fv ∧ st' = st)
  ∨ (∃ sub t',
        (fv = VStruct sub ∧ fv' = t'
         ∨ fv = VPtr (Some (VStruct sub)) ∧ fv' = VPtr (Some t'))
        ∧ rec (VStruct sub) (childPrefix (flagNameOf pfx fi) fi)
              (here ++ [i]) st
          = (t', st', None))
  ∨ ((∀ sub, fv ≠ VStruct sub) ∧ (∀ t, fv ≠ VPtr t)
     ∧ scalarStep env (flagNameOf pfx fi) (here ++ [i]) fi fv st
       = (fv', st', None)).
Proof.
  unfold fieldStep. destruct (Exported fi); simpl; [|naive_solver].
  case_decide; [naive_solver|].
  destruct fv as [| | | | | |sub|[[| | | | | |sub| | |]|]| |];
    try (intros [= <- <-]; by left);
    try (intros Hs; right; right; by repeat split).
  - destruct (rec _ _ _ _) as [[t' st1] [[e1| |]|]] eqn:Er; simpl; try done.
    intros [= <- <-]. right. left. exists sub, t'. auto.
  - destruct (rec _ _ _ _) as [[t' st1] [[e1| |]|]] eqn:Er; simpl; try done.
    intros [= <- <-]. right. left. exists sub, t'. auto.
Qed.

End StepCases.

(** ** Paths *)

Lemma fieldsOf_ptr (sub : fields) :
  fieldsOf (VPtr (Some (VStruct sub))) = fieldsOf (VStruct sub).
Proof. reflexivity. Qed.

Lemma namesAlong_ptr (r : path) (sub : fields) :
  namesAlong r (VPtr (Some (VStruct sub))) = namesAlong r (VStruct sub).
Proof. by destruct r. Qed.

Lemma getf_ptr (r : path) (sub : fields) :
  getf r (VPtr (Some (VStruct sub))) = getf r (VStruct sub).
Proof. by destruct r. Qed.

Lemma getp_ptr (r : path) (sub : fields) :
  r ≠ [] → getp r (VPtr (Some (VStruct sub))) = getp r (VStruct sub).
Proof. by destruct r. Qed.

Lemma getf_cons (i : nat) (r : path) (fs : fields) (f : finfo * value) :
  fs !! i = Some f → r ≠ [] → getf (i :: r) (VStruct fs) = getf r f.2.
Proof. intros Hf Hr. simpl. rewrite Hf. by destruct r. Qed.

Lemma getf_single (i : nat) (fs : fields) :
  getf [i] (VStruct fs) = fs !! i.
Proof. simpl. by destruct (fs !! i). Qed.

Lemma getp_cons (i : nat) (r : path) (fs : fields) (f : finfo * value) :
  fs !! i = Some f → getp (i :: r) (VStruct fs) = getp r f.2.
Proof. intros Hf. simpl. by rewrite Hf. Qed.

(** ** Errors of the walk *)

Section TrailFacts.
Context {L : GoLib}.
Variable env : gmap string string.

Lemma reflectStruct_struct (fs : fields) (pfx : string) (here : path)
    (st : state) :
  reflectStruct env (VStruct fs) pfx here st
  = (let '(fs', st', r) := reflectFields env pfx here fs 0%nat st in
     (VStruct fs', st', r)).
Proof. reflexivity. Qed.

(** An error of the walk is the error of a scalar field, wrapped with the
    names of the nested fields that lead to it, the outermost last. *)
Lemma reflectStruct_trail (fs : fields) :
  ∀ pfx here st v' st' e,
    reflectStruct env (VStruct fs) pfx here st = (v', st', Some (Err e)) →
    ∃ r j names e0 fi fv,
      namesAlong r (VStruct fs) = Some names
      ∧ e = wrapTrail names e0
      ∧ leafError e0
      ∧ getf (r ++ [j]) (VStruct fs) = Some (fi, fv)
      ∧ ∃ n st1 fv', scalarStep env n (here ++ r ++ [j]) fi fv st1
                     = (fv', st', Some (Err e0)).
Proof.
  induction fs as [fs IH] using walk_ind.
  intros pfx here st v' st' e. rewrite reflectStruct_struct.
  destruct (reflectFields env pfx here fs 0 st) as [[fs' st2] r] eqn:Eloop.
  intros [= <- <- ->].
  apply loopFields_failed in Eloop
    as (pre & fi & fv & post & pre' & fv' & st1 & -> & Hpre & Hstep & ->).
  simpl in Hstep.
  assert ((pre ++ (fi, fv) :: post) !! length pre = Some (fi, fv)) as Hmid
    by apply list_lookup_middle, eq_refl.
  apply fieldStep_error in Hstep
    as [(sub & t' & e1 & Hfv & Hrec & ->)|(Hs & Hp & Hstep)].
  - assert (nestedIn sub (pre ++ (fi, fv) :: post)) as Hin.
    { exists fi. destruct Hfv as [->| ->]; [left|right];
        apply list_elem_of_lookup; eauto. }
    destruct (IH sub Hin _ _ _ _ _ _ Hrec)
      as (r & j & names & e0 & fi1 & fv1 & Hnames & -> & Hleaf & Hget
          & n & st3 & fv3 & Hscal).
    exists (length pre :: r), j, (Name fi :: names), e0, fi1, fv1.
    repeat split.
    + simpl. rewrite Hmid. simpl.
      destruct Hfv as [->| ->]; rewrite ?namesAlong_ptr, Hnames; done.
    + done.
    + rewrite <- app_comm_cons, (getf_cons _ _ _ _ Hmid) by (by destruct r).
      simpl. destruct Hfv as [->| ->]; rewrite ?getf_ptr; done.
    + exists n, st3, fv3. rewrite <- Hscal. f_equal.
      by rewrite <- !app_assoc.
  - exists [], (length pre), [], e, fi, fv.
    repeat split.
    + eapply scalarStep_error, Hstep.
    + simpl app. by rewrite getf_single.
    + eauto.
Qed.

(** When the fields before a field are walked without failure and the
    step of that field fails, the walk of the struct returns that failure
    at once: the fields after it are as they were, and the state is the one
    the failing step left. *)
Lemma reflectStruct_stops (pfx : string) (here : path) (pre post pre' : fields)
    (fi : finfo) (fv fv' : value) (st st1 st' : state) (f : failure) :
  reflectFields env pfx here pre 0%nat st = (pre', st1, None) →
  fieldStep env (reflectStruct env) pfx here (length pre) fi fv st1
  = (fv', st', Some f) →
  reflectStruct env (VStruct (pre ++ (fi, fv) :: post)) pfx here st
  = (VStruct (pre' ++ (fi, fv') :: post), st', Some f).
Proof.
  intros Hpre Hstep. rewrite reflectStruct_struct. unfold reflectFields in *.
  by erewrite loopFields_stops by eassumption.
Qed.

End TrailFacts.

(** ** Storing through a path *)

Lemma fieldsOf_withFields (v : value) (fs fs' : fields) :
  fieldsOf v = Some fs → fieldsOf (withFields v fs') = Some fs'.
Proof. destruct v as [| | | | | | |[[]|]| |]; naive_solver. Qed.

Lemma kindOf_fieldsOf (v : value) (k : kind) :
  kindOf v = Some k → fieldsOf v = None.
Proof. by destruct v. Qed.

Lemma getp_setp_eq (p : path) (d : value) :
  ∀ v, is_Some (getp p v) → getp p (setp p d v) = Some d.
Proof.
  induction p as [|i p IH]; intros v; [done|]. simpl.
  destruct (fieldsOf v) as [fs|] eqn:Ef; [|by intros [? [=]]].
  destruct (fs !! i) as [f|] eqn:Ei; [|by intros [? [=]]].
  intros Hs. rewrite (fieldsOf_withFields _ _ _ Ef), list_lookup_alter_eq, Ei.
  simpl. by apply IH.
Qed.

Lemma getp_setp_ne (p : path) (d : value) :
  ∀ q v, Leaf p v → Leaf q v → p ≠ q → getp q (setp p d v) = getp q v.
Proof.
  induction p as [|i p IH]; intros q v (dp & kp & Hp & Hkp) (dq & kq & Hq & Hkq) Hne.
  - injection Hp as ->. destruct q as [|j q]; [done|].
    simpl in Hq. by rewrite (kindOf_fieldsOf _ _ Hkp) in Hq.
  - simpl in Hp. destruct (fieldsOf v) as [fs|] eqn:Ef; [|done].
    destruct q as [|j q].
    { injection Hq as ->. by rewrite (kindOf_fieldsOf _ _ Hkq) in Ef. }
    simpl in Hq. simpl. rewrite Ef in Hq.
    rewrite Ef, (fieldsOf_withFields _ _ _ Ef).
    destruct (decide (i = j)) as [->|Hij].
    + rewrite list_lookup_alter_eq. destruct (fs !! j) as [f|] eqn:Ej; [|done].
      simpl. apply IH; [by exists dp, kp|by exists dq, kq|congruence].
    + by rewrite list_lookup_alter_ne.
Qed.

(** ** Parsing the command line *)

Section ParseFacts.
Context {L : GoLib}.

Lemma flagSet_kind (k : kind) (text : string) (d : value) :
  flagSet k text = Some d → kindOf d = Some k.
Proof.
  destruct k; simpl; intros Hd;
    try (apply fmap_Some in Hd as [? [_ ->]]); by simplify_eq.
Qed.

Lemma store_WellBound (fl : gmap string Flag) (v d : value) (m : string)
    (F : Flag) :
  WellBound fl v → Separate fl → fl !! m = Some F →
  kindOf d = Some (Flag_Kind F) →
  WellBound fl (store F d v).
Proof.
  intros Hwb Hsep Hm Hk n F' p' Hn Hp'. unfold store.
  destruct (Flag_Ptr F) as [p|] eqn:Hp; [|by eapply Hwb].
  destruct (Hwb _ _ _ Hm Hp) as (d0 & Hd0 & Hk0).
  destruct (Hwb _ _ _ Hn Hp') as (d1 & Hd1 & Hk1).
  destruct (decide (p = p')) as [<-|Hne].
  - assert (n = m) as -> by (by eapply Hsep). simplify_eq.
    exists d. split; [|done]. apply getp_setp_eq. by rewrite Hd0.
  - exists d1. split; [|done]. rewrite getp_setp_ne; [done| | |done].
    + by exists d0, (Flag_Kind F).
    + by exists d1, (Flag_Kind F').
Qed.

(** After the command line is parsed, the field a flag is bound to holds
    what the last setting of the flag gave, or what it held before. *)
Lemma Parse_spec (fl : gmap string Flag) (args : list (string * string)) :
  ∀ v v', WellBound fl v → Separate fl → Parse fl args v = (v', None) →
    ∀ n F p, fl !! n = Some F → Flag_Ptr F = Some p →
      getp p v' = match supplied n args with
                  | Some text => flagSet (Flag_Kind F) text
                  | None => getp p v
                  end.
Proof.
  induction args as [|[m text] args IH]; intros v v' Hwb Hsep.
  - simpl. by intros [= <-].
  - simpl. destruct (fl !! m) as [Fm|] eqn:Hm; [|done].
    destruct (flagSet (Flag_Kind Fm) text) as [d|] eqn:Hd; [|done].
    intros Hparse n F p Hn Hp.
    assert (WellBound fl (store Fm d v)) as Hwb'
      by eauto using store_WellBound, flagSet_kind.
    rewrite (IH _ _ Hwb' Hsep Hparse n F p Hn Hp).
    destruct (supplied n args) as [t|]; [done|].
    destruct (Hwb _ _ _ Hn Hp) as (d1 & Hd1 & Hk1).
    case_decide as Hmn.
    + subst m. simplify_eq. unfold store. rewrite Hp.
      rewrite Hd. apply getp_setp_eq. by rewrite Hd1.
    + unfold store. destruct (Flag_Ptr Fm) as [pm|] eqn:Hpm; [|done].
      destruct (Hwb _ _ _ Hm Hpm) as (d0 & Hd0 & Hk0).
      apply getp_setp_ne.
      * by exists d0, (Flag_Kind Fm).
      * by exists d1, (Flag_Kind F).
      * intros ->. apply Hmn. by eapply Hsep.
Qed.

End ParseFacts.

(** ** What a walk that returns nil has done *)

Section WalkFacts.
Context {L : GoLib}.
Variable env : gmap string string.

Lemma WalkPost_refl (I : nat → Prop) (here : path) (v v' : value) (st : state) :
  WalkPost env I here v v' st st.
Proof. split; [done|]. split; intros; simplify_eq. Qed.

Lemma WalkPost_weaken (I I' : nat → Prop) (here : path) (v v' : value)
    (st st' : state) :
  (∀ j, I j → I' j) →
  WalkPost env I here v v' st st' → WalkPost env I' here v v' st st'.
Proof.
  intros HI (Hsub & Hnew & Hinj). split; [done|]. split; [|done].
  intros n F Hn Hold. destruct (Hnew _ _ Hn Hold) as (j & r & ? & ? & ?).
  exists j, r. auto.
Qed.

(** Two parts of a walk that register flags under different first indices
    make a walk. *)
Lemma WalkPost_seq (I1 I2 : nat → Prop) (here : path) (v v' : value)
    (st st1 st2 : state) :
  (∀ j, I1 j → I2 j → False) →
  WalkPost env I1 here v v' st st1 →
  WalkPost env I2 here v v' st1 st2 →
  WalkPost env (λ j, I1 j ∨ I2 j) here v v' st st2.
Proof.
  intros Hdisj (Hsub1 & Hnew1 & Hinj1) (Hsub2 & Hnew2 & Hinj2).
  assert (∀ n F, formal st2 !! n = Some F → formal st !! n = None →
            (formal st1 !! n = Some F)
            ∨ (formal st1 !! n = None)) as Hcase.
  { intros n F Hn Hold. destruct (formal st1 !! n) as [F1|] eqn:E1; [|auto].
    left. pose proof (lookup_weaken _ _ _ _ E1 Hsub2). congruence. }
  split; [by etrans|]. split.
  - intros n F Hn Hold. destruct (Hcase _ _ Hn Hold) as [H1|H1].
    + destruct (Hnew1 _ _ H1 Hold) as (j & r & ? & ? & ?). exists j, r. auto.
    + destruct (Hnew2 _ _ Hn H1) as (j & r & ? & ? & ?). exists j, r. auto.
  - intros n1 n2 F1 F2 Hn1 Hold1 Hn2 Hold2 Hptr.
    destruct (Hcase _ _ Hn1 Hold1) as [H1|H1],
             (Hcase _ _ Hn2 Hold2) as [H2|H2].
    + eauto.
    + destruct (Hnew1 _ _ H1 Hold1) as (j1 & r1 & Hj1 & Hp1 & _).
      destruct (Hnew2 _ _ Hn2 H2) as (j2 & r2 & Hj2 & Hp2 & _).
      rewrite Hp1, Hp2 in Hptr. apply (inj Some), app_inv_head in Hptr.
      injection Hptr as -> _. by destruct (Hdisj j2).
    + destruct (Hnew2 _ _ Hn1 H1) as (j1 & r1 & Hj1 & Hp1 & _).
      destruct (Hnew1 _ _ H2 Hold2) as (j2 & r2 & Hj2 & Hp2 & _).
      rewrite Hp1, Hp2 in Hptr. apply (inj Some), app_inv_head in Hptr.
      injection Hptr as -> _. by destruct (Hdisj j2).
    + eauto.
Qed.

Lemma reflectStruct_shape (sub : fields) (pfx : string) (here : path)
    (st st' : state) (t' : value) (r : option failure) :
  reflectStruct env (VStruct sub) pfx here st = (t', st', r) →
  ∃ sub', t' = VStruct sub'.
Proof.
  rewrite reflectStruct_struct.
  destruct (reflectFields _ _ _ _ _ _) as [[sub' ?] ?]. intros [= <- _ _].
  eauto.
Qed.

(** A flag bound in a nested struct is bound in the struct around it. *)
Lemma Bound_nested (n : string) (F : Flag) (i : nat) (r : path)
    (sub sub' pre post pre' post' : fields) (fi : finfo) (fv fv' : value) :
  length pre = i → length pre' = i → r ≠ [] →
  (fv = VStruct sub ∧ fv' = VStruct sub'
   ∨ fv = VPtr (Some (VStruct sub)) ∧ fv' = VPtr (Some (VStruct sub'))) →
  Bound env n F r (VStruct sub) (VStruct sub') →
  Bound env n F (i :: r) (VStruct (pre ++ (fi, fv) :: post))
                         (VStruct (pre' ++ (fi, fv') :: post')).
Proof.
  intros Hi Hi' Hr Hfv (fj & d & Hgetf & Hgetp & Hrest).
  exists fj, d. split; [|split; [|done]].
  - rewrite (getf_cons _ _ _ (fi, fv)) by (done || by apply list_lookup_middle).
    simpl. destruct Hfv as [[-> _]|[-> _]]; by rewrite ?getf_ptr.
  - rewrite (getp_cons _ _ _ (fi, fv')) by (by apply list_lookup_middle).
    simpl. destruct Hfv as [[_ ->]|[_ ->]]; by rewrite ?getp_ptr.
Qed.

Lemma step_post (pfx : string) (here : path) (i : nat) (fi : finfo)
    (fv fv' : value) (st st' : state) (pre post pre' post' : fields) :
  (∀ sub, nestedIn sub [(fi, fv)] → WalkOK env sub) →
  fieldStep env (reflectStruct env) pfx here i fi fv st = (fv', st', None) →
  length pre = i → length pre' = i →
  WalkPost env (λ j, j = i) here
    (VStruct (pre ++ (fi, fv) :: post)) (VStruct (pre' ++ (fi, fv') :: post'))
    st st'.
Proof.
  intros IH Hstep Hi Hi'.
  apply fieldStep_ok in Hstep
    as [[-> ->]|[(sub & t' & Hfv & Hrec)|(Hs & Hp & Hstep)]].
  - apply WalkPost_refl.
  - destruct (reflectStruct_shape _ _ _ _ _ _ _ Hrec) as [sub' ->].
    assert (WalkOK env sub) as Hok.
    { apply IH. exists fi. destruct Hfv as [[-> _]|[-> _]]; [left|right];
        by apply list_elem_of_singleton. }
    destruct (Hok _ _ _ _ _ Hrec) as (Hsub & Hnew & Hinj).
    split; [done|]. split; [|done].
    intros n F Hn Hold. destruct (Hnew _ _ Hn Hold) as (j & r & _ & Hptr & Hb).
    exists i, (j :: r). split; [done|]. split.
    + by rewrite Hptr, <- app_assoc.
    + eapply Bound_nested; eauto.
  - apply scalarStep_ok in Hstep
      as (k & Hk & Hk' & Hfree & Hname & Hformal & Hoff & Hon).
    split; [|split].
    + rewrite Hformal. by apply insert_subseteq.
    + intros n F Hn Hold. rewrite Hformal in Hn.
      apply lookup_insert_Some in Hn as [[<- <-]|[_ Hn]]; [|congruence].
      exists i, []. split; [done|]. split; [done|].
      exists fi, fv. simpl.
      rewrite !list_lookup_middle by done. simpl.
      repeat split; try done.
      * intros Henv. by apply Hoff.
      * intros Henv. by apply Hon.
    + intros n1 n2 F1 F2 Hn1 Hold1 Hn2 Hold2 _. rewrite Hformal in Hn1, Hn2.
      apply lookup_insert_Some in Hn1 as [[<- _]|[_ Hn1]]; [|congruence].
      apply lookup_insert_Some in Hn2 as [[<- _]|[_ Hn2]]; [|congruence].
      done.
Qed.

Lemma loop_post (pfx : string) (here : path) (fs : fields) :
  (∀ sub, nestedIn sub fs → WalkOK env sub) →
  ∀ pre pre' i st fs' st',
    length pre = i → length pre' = i →
    reflectFields env pfx here fs i st = (fs', st', None) →
    WalkPost env (λ j, (i ≤ j)%nat) here
      (VStruct (pre ++ fs)) (VStruct (pre' ++ fs')) st st'.
Proof.
  unfold reflectFields.
  induction fs as [|[fi fv] fs IHfs]; intros IH pre pre' i st fs' st' Hi Hi'.
  - simpl. intros [= <- <-]. apply WalkPost_refl.
  - rewrite loopFields_cons.
    destruct (fieldStep _ _ _ _ _ _ _ _) as [[fv1 st1] [f|]] eqn:Estep;
      [done|].
    destruct (loopFields _ _ _ _ _ _ _) as [[rest' st2] r] eqn:Eloop.
    intros [= <- <- ->].
    eapply WalkPost_weaken;
      [|eapply (WalkPost_seq (λ j, j = i) (λ j, (S i ≤ j)%nat))].
    + simpl. intros j [->|Hj]; lia.
    + simpl. intros j -> Hj. lia.
    + eapply step_post; eauto.
      intros sub [fj Hin]. apply IH. exists fj.
      destruct Hin as [Hin|Hin]; apply list_elem_of_singleton in Hin;
        [left|right]; rewrite Hin; by left.
    + assert (∀ sub, nestedIn sub fs → WalkOK env sub) as IH'.
      { intros sub [fj Hin]. apply IH. exists fj.
        destruct Hin; [left|right]; by right. }
      pose proof (IHfs IH' (pre ++ [(fi, fv)]) (pre' ++ [(fi, fv1)]) (S i)
                    st1 rest' st2) as Hrest.
      rewrite <- !app_assoc in Hrest. simpl in Hrest. apply Hrest; try done.
      * rewrite length_app. simpl. lia.
      * rewrite length_app. simpl. lia.
Qed.

Lemma reflectStruct_post (sub : fields) : WalkOK env sub.
Proof.
  induction sub as [sub IH] using walk_ind.
  intros pfx here st v' st'. rewrite reflectStruct_struct.
  destruct (reflectFields _ _ _ _ _ _) as [[sub' st2] r] eqn:Eloop.
  intros [= <- <- ->].
  eapply WalkPost_weaken; [|eapply (loop_post _ _ _ IH [] [])]; done.
Qed.

End WalkFacts.

(** ** Defaults and precedence *)

Section Precedence.
Context {L : GoLib}.
Variable env : gmap string string.

Lemma readConfig_ok (cfg cfg' : value) (st st' : state) :
  readConfig env cfg st = (cfg', st', None) →
  ∃ fs fs', cfg = VPtr (Some (VStruct fs)) ∧ cfg' = VPtr (Some (VStruct fs'))
            ∧ WalkPost env (λ _, True) [] (VStruct fs) (VStruct fs') st st'.
Proof.
  destruct cfg as [| | | | | | |[t|]| |]; try done. simpl.
  destruct (reflectStruct env t "" [] st) as [[t' st1] r] eqn:Ewalk.
  intros [= <- <- ->].
  destruct t as [| | | | | |fs| | |]; try done.
  destruct (reflectStruct_shape _ _ _ _ _ _ _ _ Ewalk) as [fs' ->].
  exists fs, fs'. repeat split; try done.
  all: by destruct (reflectStruct_post env fs _ _ _ _ _ Ewalk) as (? & ? & ?).
Qed.

(** The flags [readConfig] registers, and what their fields hold when it
    returns. *)
Lemma readConfig_defaults (cfg cfg' : value) (st st' : state) :
  readConfig env cfg st = (cfg', st', None) →
  ∀ n F, formal st' !! n = Some F → formal st !! n = None →
    ∃ p fi d,
      Flag_Ptr F = Some p
      ∧ getf p cfg = Some (fi, d)
      ∧ kindOf d = Some (Flag_Kind F)
      ∧ getp p cfg' = Some (Flag_Def F)
      ∧ if decide (fst (Lookup (Tag fi) "env") = "-") then Flag_Def F = d
        else match LookupEnv env (envNameOf n fi) with
             | Some raw => lookupEnv env (envNameOf n fi) d = inl (Flag_Def F)
             | None => Flag_Def F = d
             end.
Proof.
  intros Hread n F Hn Hold.
  destruct (readConfig_ok _ _ _ _ Hread) as (fs & fs' & -> & -> & _ & Hnew & _).
  destruct (Hnew _ _ Hn Hold)
    as (j & r & _ & Hptr & fi & d & Hf & Hp & Hk & _ & _ & Hoff & Hon).
  exists (j :: r), fi, d. rewrite getf_ptr, getp_ptr by done.
  repeat split; try done.
  case_decide as Henv; [by apply Hoff|].
  specialize (Hon Henv).
  destruct (LookupEnv env (envNameOf n fi)) as [raw|] eqn:El; [done|].
  rewrite lookupEnv_unset in Hon by done. congruence.
Qed.

(** C9.  When [readConfig] returns nil, every flag it has registered is
    bound to a scalar field of the configuration which, before any
    argument is parsed, holds the flag's default: the value the resolver
    made of the environment variable when that is set and asked for, and
    otherwise the value the field held before the call. *)
Theorem registered_holds_default (cfg cfg' : value) (st st' : state) :
  readConfig env cfg st = (cfg', st', None) →
  ∀ n F, formal st' !! n = Some F → formal st !! n = None →
    ∃ p fi d,
      Flag_Ptr F = Some p
      ∧ getf p cfg = Some (fi, d)
      ∧ kindOf d = Some (Flag_Kind F)
      ∧ getp p cfg' = Some (Flag_Def F)
      ∧ if decide (fst (Lookup (Tag fi) "env") = "-") then Flag_Def F = d
        else match LookupEnv env (envNameOf n fi) with
             | Some raw => lookupEnv env (envNameOf n fi) d = inl (Flag_Def F)
             | None => Flag_Def F = d
             end.
Proof. exact (readConfig_defaults cfg cfg' st st'). Qed.

(** C1.  When [ReadConfig] returns nil, the flags of the command-line flag
    set being bound outside the configuration before the call, every flag
    the call has registered is bound to a scalar field of the
    configuration that ends up holding: the value of the text the command
    line gives for the flag, if it gives one; otherwise, unless the field
    is annotated [env:"-"], the value the resolver makes of its environment
    variable, if that is set; otherwise the value it held before the
    call. *)
Theorem precedence (cfg cfg' : value) (st st' : state)
    (args : list (string * string)) :
  (∀ n F, formal st !! n = Some F → Flag_Ptr F = None) →
  ReadConfig env cfg st args = (cfg', st', None) →
  ∀ n F, formal st' !! n = Some F → formal st !! n = None →
    ∃ p fi d,
      Flag_Ptr F = Some p
      ∧ getf p cfg = Some (fi, d)
      ∧ kindOf d = Some (Flag_Kind F)
      ∧ match supplied n args with
        | Some text =>
            ∃ c, flagSet (Flag_Kind F) text = Some c ∧ getp p cfg' = Some c
        | None =>
            if decide (fst (Lookup (Tag fi) "env") = "-")
            then getp p cfg' = Some d
            else match LookupEnv env (envNameOf n fi) with
                 | Some raw =>
                     ∃ e, lookupEnv env (envNameOf n fi) d = inl e
                          ∧ getp p cfg' = Some e
                 | None => getp p cfg' = Some d
                 end
        end.
Proof.
  intros Hout. unfold ReadConfig, readConfigWithFlagset.
  destruct (readConfig env cfg st) as [[cfg1 st1] [f|]] eqn:Hread; [done|].
  destruct (Parse (formal st1) args cfg1) as [cfg2 r2] eqn:Hparse.
  intros [= <- <- ->] n F Hn Hold.
  destruct (readConfig_defaults _ _ _ _ Hread _ _ Hn Hold)
    as (p & fi & d & Hptr & Hf & Hk & Hp & Hdef).
  destruct (readConfig_ok _ _ _ _ Hread)
    as (fs & fs' & -> & -> & Hsub & Hnew & Hinj).
  assert (∀ m G q, formal st1 !! m = Some G → Flag_Ptr G = Some q →
            formal st !! m = None) as Hfresh.
  { intros m G q Hm Hq. destruct (formal st !! m) as [G0|] eqn:E0; [|done].
    pose proof (lookup_weaken _ _ _ _ E0 Hsub) as E1.
    pose proof (Hout _ _ E0) as Hnone. congruence. }
  assert (WellBound (formal st1) (VPtr (Some (VStruct fs')))) as Hwb.
  { intros m G q Hm Hq. pose proof (Hfresh _ _ _ Hm Hq) as Hm0.
    destruct (Hnew _ _ Hm Hm0) as (j & r & _ & Hq' & fj & dj & _ & Hgp & _ & Hkj & _).
    exists (Flag_Def G). rewrite Hq in Hq'. injection Hq' as ->.
    by rewrite getp_ptr. }
  assert (Separate (formal st1)) as Hsep.
  { intros m1 m2 G1 G2 q Hm1 Hm2 Hq1 Hq2.
    eapply Hinj; eauto. congruence. }
  exists p, fi, d. repeat split; try done.
  rewrite (Parse_spec _ _ _ _ Hwb Hsep Hparse _ _ _ Hn Hptr).
  destruct (supplied n args) as [text|] eqn:Hs.
  - destruct (flagSet (Flag_Kind F) text) as [c|] eqn:Hc; [eauto|].
    exfalso. clear -Hparse Hs Hn Hc.
    revert cfg2 Hparse. generalize (VPtr (Some (VStruct fs'))).
    induction args as [|[m t] args IH]; intros v cfg2; [done|].
    simpl in *. destruct (formal st1 !! m) as [G|] eqn:Hm; [|done].
    destruct (flagSet (Flag_Kind G) t) as [c|] eqn:Hg; [|done].
    destruct (supplied n args) as [t'|] eqn:Hs'.
    + injection Hs as ->. eauto.
    + case_decide; [|done]. simplify_eq.
  - rewrite Hp. case_decide; [congruence|].
    destruct (LookupEnv env (envNameOf n fi)); [eauto|congruence].
Qed.

End Precedence.

(** ** The theorems at work on the configurations of the tests *)

Module Witness.
Import Sample.

Lemma nested_child_prefix_witness :
  Exported addr2 = true
  ∧ fst (Lookup (Tag addr2) "flag") ≠ "-"
  ∧ fieldStep nestedEnv (reflectStruct nestedEnv) "" [] 2 addr2
      (VPtr (Some (Ss2 "" ""))) st0
    = (let '(t', st', r) := reflectStruct nestedEnv (Ss2 "" "") "" [2%nat] st0 in
       (VPtr (Some t'), st', fieldFailure addr2 r)).
Proof.
  split; [reflexivity|]. split; [discriminate|].
  apply (nested_child_prefix nestedEnv (reflectStruct nestedEnv) "" [] 2 addr2
           [(Finfo "Street" true noTag, VString "");
            (Finfo "Zip" true [("flag", "postcode")], VString "")] st0);
    [reflexivity|discriminate].
Defined.

Lemma plain_scalar_names_witness :
  Exported lastName = true
  ∧ Lookup (Tag lastName) "flag" = ("", false)
  ∧ Lookup (Tag lastName) "env" = ("", false)
  ∧ kindOf (VString "") = Some KString
  ∧ ∀ fv' st',
      fieldStep basicEnv (reflectStruct basicEnv) "" [] 1 lastName (VString "") st0
      = (fv', st', None) →
      lookups st' = lookups st0 ++ ["LAST_NAME"]
      ∧ formal st0 !! "last-name" = None
      ∧ formal st' !! "last-name"
        = Some (mkFlag "last-name" "last name of user" (Some [1%nat]) KString fv').
Proof.
  repeat (split; [reflexivity|]).
  exact (proj2 (plain_scalar_names basicEnv (reflectStruct basicEnv) "" [] 1
                  lastName (VString "") KString st0
                  eq_refl eq_refl eq_refl eq_refl)).
Defined.

Lemma empty_env_annotation_witness :
  Exported quiet = true
  ∧ fst (Lookup (Tag quiet) "flag") ≠ "-"
  ∧ Lookup (Tag quiet) "env" = ("", true)
  ∧ kindOf (VBool false) = Some KBool
  ∧ fieldStep (<["" := "true"]> (<["QUIET" := "true"]> ∅))
      (reflectStruct ∅) "" [] 0 quiet (VBool false) st0
    = (VBool false,
       State (<["quiet" := mkFlag "quiet" "" (Some [0%nat]) KBool (VBool false)]> ∅)
             [""],
       None).
Proof.
  assert (fst (Lookup (Tag quiet) "flag") ≠ "-") as Hflag by discriminate.
  split; [reflexivity|]. split; [exact Hflag|].
  split; [reflexivity|]. split; [reflexivity|].
  destruct (empty_env_annotation (<["" := "true"]> (<["QUIET" := "true"]> ∅))
              (reflectStruct ∅) "" [] 0 quiet (VBool false) KBool st0
              eq_refl Hflag eq_refl eq_refl) as (_ & _ & _ & W).
  exact (W eq_refl eq_refl).
Defined.


(** The test "Basic". *)
Lemma registered_holds_default_witness :
  readConfig basicEnv basicCfg st0
  = (MyConfig "John" "" 0 true false,
     (readConfig basicEnv basicCfg st0).1.2, None)
  ∧ formal (readConfig basicEnv basicCfg st0).1.2 !! "swimmer" = Some swimmerFlag
  ∧ formal st0 !! "swimmer" = None
  ∧ ∃ p fi d,
      Flag_Ptr swimmerFlag = Some p
      ∧ getf p basicCfg = Some (fi, d)
      ∧ kindOf d = Some (Flag_Kind swimmerFlag)
      ∧ getp p (MyConfig "John" "" 0 true false) = Some (Flag_Def swimmerFlag)
      ∧ if decide (fst (Lookup (Tag fi) "env") = "-")
        then Flag_Def swimmerFlag = d
        else match LookupEnv basicEnv (envNameOf "swimmer" fi) with
             | Some raw =>
                 lookupEnv basicEnv (envNameOf "swimmer" fi) d
                 = inl (Flag_Def swimmerFlag)
             | None => Flag_Def swimmerFlag = d
             end.
Proof.
  split; [vm_compute; reflexivity|]. split; [vm_compute; reflexivity|].
  split; [reflexivity|].
  apply (registered_holds_default basicEnv basicCfg
           (MyConfig "John" "" 0 true false) st0
           (readConfig basicEnv basicCfg st0).1.2);
    vm_compute; reflexivity.
Defined.

Lemma precedence_witness :
  (∀ n F, formal st0 !! n = Some F → Flag_Ptr F = None)
  ∧ ReadConfig basicEnv basicCfg st0 basicArgs
    = (MyConfig "John" "Smith" 7 true false,
       (ReadConfig basicEnv basicCfg st0 basicArgs).1.2, None)
  ∧ formal (ReadConfig basicEnv basicCfg st0 basicArgs).1.2 !! "age"
    = Some ageFlag
  ∧ formal st0 !! "age" = None
  ∧ ∃ p fi d,
      Flag_Ptr ageFlag = Some p
      ∧ getf p basicCfg = Some (fi, d)
      ∧ kindOf d = Some (Flag_Kind ageFlag)
      ∧ match supplied "age" basicArgs with
        | Some text =>
            ∃ c, flagSet (Flag_Kind ageFlag) text = Some c
                 ∧ getp p (MyConfig "John" "Smith" 7 true false) = Some c
        | None =>
            if decide (fst (Lookup (Tag fi) "env") = "-")
            then getp p (MyConfig "John" "Smith" 7 true false) = Some d
            else match LookupEnv basicEnv (envNameOf "age" fi) with
                 | Some raw =>
                     ∃ e, lookupEnv basicEnv (envNameOf "age" fi) d = inl e
                          ∧ getp p (MyConfig "John" "Smith" 7 true false)
                            = Some e
                 | None =>
                     getp p (MyConfig "John" "Smith" 7 true false) = Some d
                 end
        end.
Proof.
  assert (∀ n F, formal st0 !! n = Some F → Flag_Ptr F = None) as Hout.
  { intros n F Hn. unfold st0 in Hn. simpl in Hn.
    rewrite lookup_empty in Hn. discriminate. }
  split; [exact Hout|].
  split; [vm_compute; reflexivity|]. split; [vm_compute; reflexivity|].
  split; [reflexivity|].
  apply (precedence basicEnv basicCfg (MyConfig "John" "Smith" 7 true false)
           st0 (ReadConfig basicEnv basicCfg st0 basicArgs).1.2 basicArgs Hout);
    vm_compute; reflexivity.
Defined.

End Witness.

(** * Further properties *)

(** ** More on the environment resolver *)

Section ResolverMore.
Context {L : GoLib}.
Variable env : gmap string string.

(** X1.  What the resolver returns has the type of the default: a value of
    the same supported type, or the default itself when its type is not
    supported. *)
Theorem lookupEnv_same_type (envNm : string) (d x : value) :
  lookupEnv env envNm d = inl x →
  kindOf x = kindOf d ∧ (kindOf d = None → x = d).
Proof.
  unfold lookupEnv. destruct (LookupEnv env envNm) as [raw|].
  - destruct d; simpl; try done; repeat case_match; naive_solver.
  - naive_solver.
Qed.

Lemma lookupEnv_again (envNm : string) (d x : value) :
  lookupEnv env envNm d = inl x → lookupEnv env envNm x = inl x.
Proof.
  unfold lookupEnv. destruct (LookupEnv env envNm) as [raw|]; [|naive_solver].
  destruct d; simpl; try done; repeat case_match; intros; simplify_eq; simpl;
    repeat case_match; naive_solver.
Qed.

(** X2.  Resolving is idempotent: the value the resolver returned for a
    default is returned again when it is the default. *)
Theorem lookupEnv_idempotent (envNm : string) (d x : value) :
  lookupEnv env envNm d = inl x → lookupEnv env envNm x = inl x.
Proof.
  intros Hd. unfold lookupEnv in *.
  destruct (LookupEnv env envNm) as [raw|]; [|by injection Hd as ->].
  destruct d; simpl in Hd; try done.
  - destruct (Atoi raw) eqn:E; [|done]. by injection Hd as <-.
  - destruct (ParseInt raw) eqn:E; [|done]. by injection Hd as <-.
  - destruct (ParseFloat raw) eqn:E; [|done]. by injection Hd as <-.
  - by injection Hd as <-.
  - destruct (decide _) as [Ht|Ht]; by injection Hd as <-.
  - destruct (ParseDuration raw) eqn:E; [|done]. by injection Hd as <-.
Qed.

(** X3.  The resolver fails only on a variable that is set, and never on a
    string or boolean default: the error is the parse error carrying the
    name and the text of the variable when the default is of a supported
    type, and the unsupported-type error otherwise. *)
Theorem lookupEnv_error_inv (envNm : string) (d : value) (e : error) :
  lookupEnv env envNm d = inr e →
  ∃ raw, LookupEnv env envNm = Some raw
         ∧ kindOf d ≠ Some KString ∧ kindOf d ≠ Some KBool
         ∧ (is_Some (kindOf d) ∧ e = ErrParse envNm raw
            ∨ kindOf d = None ∧ e = ErrLookupUnsupported envNm).
Proof.
  unfold lookupEnv. destruct (LookupEnv env envNm) as [raw|]; [|done].
  intros He. exists raw. split; [done|].
  destruct d; simpl in *; repeat case_match; simplify_eq;
    naive_solver.
Qed.

End ResolverMore.

(** ** The walk as a run over the leaf fields *)

Section Flatten.
Context {L : GoLib}.
Variable env : gmap string string.

Lemma wrapTrail_snoc (trail : list string) (n : string) (e : error) :
  wrapTrail (trail ++ [n]) e = wrapTrail trail (ErrFieldFailure e n).
Proof. induction trail as [|m trail IH]; simpl; [done|]. by rewrite IH. Qed.

Lemma trailFailure_snoc (trail : list string) (fi : finfo)
    (r : option failure) :
  trailFailure (trail ++ [Name fi]) <$> r
  = trailFailure trail <$> fieldFailure fi r.
Proof. destruct r as [[e|p|]|]; simpl; try done. by rewrite wrapTrail_snoc. Qed.

Lemma runLeaves_app (l1 l2 : list leafField) (st : state) :
  runLeaves env (l1 ++ l2) st
  = (let '(st1, r) := runLeaves env l1 st in
     match r with
     | Some f => (st1, Some f)
     | None => runLeaves env l2 st1
     end).
Proof.
  revert st. induction l1 as [|l l1 IH]; intros st; simpl; [done|].
  destruct (scalarStep env _ _ _ _ st) as [[fv' st1] [f|]]; [done|].
  apply IH.
Qed.

Lemma leavesOf_struct (fs : fields) (pfx : string) (here : path)
    (trail : list string) :
  leavesOf (VStruct fs) pfx here trail
  = leavesLoop leavesOf pfx here trail fs 0%nat.
Proof. reflexivity. Qed.

Lemma step_flat (pfx : string) (here : path) (trail : list string) (i : nat)
    (fi : finfo) (fv fv' : value) (st st' : state) (r : option failure) :
  (∀ sub, nestedIn sub [(fi, fv)] → FlatOK env sub) →
  fieldStep env (reflectStruct env) pfx here i fi fv st = (fv', st', r) →
  runLeaves env (leavesStep leavesOf pfx here trail i fi fv) st
  = (st', trailFailure trail <$> r).
Proof.
  intros IH. unfold fieldStep, leavesStep.
  destruct (Exported fi); simpl; [|by intros [= _ <- <-]].
  case_decide; [by intros [= _ <- <-]|].
  assert (∀ sub, fv = VStruct sub ∨ fv = VPtr (Some (VStruct sub)) →
            FlatOK env sub) as IH'.
  { intros sub Hfv. apply IH. exists fi.
    destruct Hfv as [->| ->]; [left|right]; by apply list_elem_of_singleton. }
  assert (∀ st1 r1,
            scalarStep env (flagNameOf pfx fi) (here ++ [i]) fi fv st
            = (fv', st1, r1) →
            runLeaves env [LeafField (here ++ [i]) (flagNameOf pfx fi) fi fv trail]
                      st
            = (st1, trailFailure trail <$> r1)) as Hscalar.
  { intros st1 r1 E. simpl. rewrite E. by destruct r1. }
  destruct fv as [| | | | | |sub|[[| | | | | |sub| | |]|]| |];
    try (by apply Hscalar); try (by intros [= _ <- <-]).
  - destruct (reflectStruct env (VStruct sub) _ _ st) as [[t' st1] r1] eqn:Er.
    intros [= _ <- <-].
    rewrite (IH' sub (or_introl eq_refl) _ _ _ _ _ _ _ Er).
    by rewrite trailFailure_snoc.
  - destruct (reflectStruct env (VStruct sub) _ _ st) as [[t' st1] r1] eqn:Er.
    intros [= _ <- <-].
    rewrite (IH' sub (or_intror eq_refl) _ _ _ _ _ _ _ Er).
    by rewrite trailFailure_snoc.
Qed.

Lemma loop_flat (pfx : string) (here : path) (trail : list string)
    (fs : fields) :
  (∀ sub, nestedIn sub fs → FlatOK env sub) →
  ∀ i st fs' st' r,
    reflectFields env pfx here fs i st = (fs', st', r) →
    runLeaves env (leavesLoop leavesOf pfx here trail fs i) st
    = (st', trailFailure trail <$> r).
Proof.
  unfold reflectFields.
  induction fs as [|[fi fv] fs IHfs]; intros IH i st fs' st' r.
  - simpl. by intros [= _ <- <-].
  - rewrite loopFields_cons. simpl leavesLoop. rewrite runLeaves_app.
    destruct (fieldStep _ _ _ _ _ _ _ _) as [[fv1 st1] r1] eqn:Estep.
    erewrite step_flat; [|
      intros sub [fj Hin]; apply IH; exists fj;
      destruct Hin as [Hin|Hin]; apply list_elem_of_singleton in Hin;
      [left|right]; rewrite Hin; by left
      | exact Estep].
    destruct r1 as [f|]; simpl.
    + by intros [= _ <- <-].
    + destruct (loopFields _ _ _ _ _ _ _) as [[rest' st2] r2] eqn:Eloop.
      intros [= _ <- <-]. eapply IHfs; [|exact Eloop].
      intros sub [fj Hin]. apply IH. exists fj.
      destruct Hin; [left|right]; by right.
Qed.

Lemma reflectStruct_flat (sub : fields) : FlatOK env sub.
Proof.
  induction sub as [sub IH] using walk_ind.
  intros pfx here trail st v' st' r. rewrite reflectStruct_struct.
  destruct (reflectFields _ _ _ _ _ _) as [[sub' st2] r2] eqn:Eloop.
  intros [= _ <- <-]. rewrite leavesOf_struct.
  by eapply loop_flat.
Qed.

Lemma reflectStruct_run (fs : fields) (pfx : string) (here : path)
    (st st' : state) (v' : value) (r : option failure) :
  reflectStruct env (VStruct fs) pfx here st = (v', st', r) →
  runLeaves env (leavesOf (VStruct fs) pfx here []) st = (st', r).
Proof.
  intros E. rewrite (reflectStruct_flat fs _ _ [] _ _ _ _ E).
  by destruct r as [[]|].
Qed.

(** X4.  The walk of a struct is the run of the scalar step over its leaf
    fields, in declaration order and depth first, up to the first that
    fails: it ends in the same state and with the same failure. *)
Theorem walk_is_run_of_leaves (fs : fields) (pfx : string) (here : path)
    (st : state) :
  let '(v', st', r) := reflectStruct env (VStruct fs) pfx here st in
  runLeaves env (leavesOf (VStruct fs) pfx here []) st = (st', r).
Proof.
  destruct (reflectStruct env (VStruct fs) pfx here st) as [[v' st'] r] eqn:E.
  by apply reflectStruct_run in E.
Qed.

End Flatten.

(** ** What a run over leaf fields does *)

Section RunFacts.
Context {L : GoLib}.
Variable env : gmap string string.

(** A scalar step, however it ends, keeps the flags and the lookups there
    were. *)
Lemma scalarStep_mono (n : string) (x : path) (fi : finfo) (fv fv' : value)
    (st st' : state) (r : option failure) :
  scalarStep env n x fi fv st = (fv', st', r) →
  formal st ⊆ formal st' ∧ lookups st `prefix_of` lookups st'.
Proof.
  rewrite scalarStep_kind. unfold resolveDefault.
  assert (∀ st1 d k, formal st ⊆ formal st1 →
            lookups st `prefix_of` lookups st1 →
            (let '(st2, r) := Var k x n d (Get (Tag fi) "usage") st1 in
             (d, st2, r)) = (fv', st', r) →
            formal st ⊆ formal st' ∧ lookups st `prefix_of` lookups st')
    as HVar.
  { intros st1 d k Hf Hl. unfold Var.
    destruct (flagNameOK n); simpl; [|by intros [= _ <- _]].
    destruct (formal st1 !! n) eqn:E; [by intros [= _ <- _]|].
    intros [= _ <- _]. simpl. split; [|done].
    etrans; [done|]. by apply insert_subseteq. }
  case_decide.
  - destruct (lookupEnv _ _ _) as [d|e].
    + destruct (kindOf fv) as [k|]; [case_decide|].
      * apply HVar; simpl; [done|]. by apply prefix_app_r.
      * intros [= _ <- _]. simpl. split; [done|]. by apply prefix_app_r.
      * intros [= _ <- _]. simpl. split; [done|]. by apply prefix_app_r.
    + intros [= _ <- _]. simpl. split; [done|]. by apply prefix_app_r.
  - destruct (kindOf fv) as [k|]; [case_decide|].
    + by apply HVar.
    + by intros [= _ <- _].
    + by intros [= _ <- _].
Qed.

Lemma runLeaves_mono (ls : list leafField) :
  ∀ st st' r, runLeaves env ls st = (st', r) →
    formal st ⊆ formal st' ∧ lookups st `prefix_of` lookups st'.
Proof.
  induction ls as [|l ls IH]; intros st st' r; simpl.
  - by intros [= <- _].
  - destruct (scalarStep env _ _ _ _ st) as [[fv' st1] r1] eqn:E.
    apply scalarStep_mono in E as [Hf Hl].
    destruct r1 as [f|].
    + by intros [= <- _].
    + intros Hrun. destruct (IH _ _ _ Hrun) as [Hf' Hl'].
      split; by etrans.
Qed.

(** The scalar step of a leaf field that can be registered. *)
Lemma scalarStep_registrable (l : leafField) (st : state) :
  registrable env (formal st) l →
  ∃ d k, resolved env l = inl d ∧ kindOf (leaf_val l) = Some k
    ∧ scalarStep env (leaf_name l) (leaf_path l) (leaf_info l) (leaf_val l) st
      = (d,
         State (<[leaf_name l := mkFlag (leaf_name l)
                                   (Get (Tag (leaf_info l)) "usage")
                                   (Some (leaf_path l)) k d]> (formal st))
               (lookups st ++ envNamesOf [l]),
         None).
Proof.
  intros ([k Hk] & [d Hd] & Hok & Hfree). exists d, k.
  split; [done|]. split; [done|].
  rewrite scalarStep_kind. unfold resolveDefault, envNamesOf.
  assert (Interface (leaf_val l) = leaf_val l) as -> by (by destruct (leaf_val l)).
  unfold resolved in Hd. simpl. rewrite Hk.
  destruct (decide (fst (Lookup (Tag (leaf_info l)) "env") = "-")) as [He|He].
  - rewrite decide_False by naive_solver. injection Hd as <-.
    rewrite decide_True by done. unfold Var. rewrite Hok. simpl.
    rewrite Hfree. by rewrite app_nil_r; destruct st.
  - rewrite decide_True by done. rewrite Hd.
    rewrite decide_True by eauto using lookupEnv_kind.
    unfold Var. rewrite Hok. simpl. by rewrite Hfree.
Qed.

(** A scalar step that goes on was that of a leaf field that can be
    registered. *)
Lemma scalarStep_ok_registrable (l : leafField) (fv' : value) (st st' : state) :
  scalarStep env (leaf_name l) (leaf_path l) (leaf_info l) (leaf_val l) st
  = (fv', st', None) →
  registrable env (formal st) l.
Proof.
  intros E. apply scalarStep_ok in E
    as (k & Hk & Hk' & Hfree & Hname & Hformal & Hoff & Hon).
  split; [by rewrite Hk|]. split; [|done].
  exists fv'. unfold resolved. case_decide as He.
  - by destruct (Hoff He) as [-> _].
  - by destruct (Hon He).
Qed.

(** A run that goes to its end: the leaf fields could all be registered
    and have different names, and each is registered. *)
Lemma runLeaves_ok (ls : list leafField) :
  ∀ st st', runLeaves env ls st = (st', None) →
    Forall (registrable env (formal st)) ls
    ∧ NoDup (map leaf_name ls)
    ∧ lookups st' = lookups st ++ envNamesOf ls
    ∧ dom (formal st') = dom (formal st) ∪ list_to_set (map leaf_name ls)
    ∧ size (formal st') = (size (formal st) + length ls)%nat
    ∧ ∀ l, l ∈ ls →
        ∃ d, resolved env l = inl d ∧ formal st' !! leaf_name l = flagOf l d.
Proof.
  induction ls as [|l ls IH]; intros st st'.
  - simpl. intros [= <-]. rewrite app_nil_r.
    split; [constructor|]. split; [constructor|]. split; [done|].
    split; [simpl; by rewrite union_empty_r_L|]. split; [simpl; lia|].
    intros l Hl. by apply not_elem_of_nil in Hl.
  - simpl runLeaves.
    destruct (scalarStep env _ _ _ _ st) as [[fv' st1] [f|]] eqn:E; [done|].
    intros Hrun. pose proof (scalarStep_ok_registrable _ _ _ _ E) as Hreg.
    destruct (scalarStep_registrable _ st Hreg) as (d & k & Hd & Hk & E').
    rewrite E in E'. injection E' as -> ->.
    destruct (IH _ _ Hrun) as (Hall & Hnd & Hlk & Hdom & Hsize & Hflags).
    simpl in Hall, Hlk, Hdom, Hsize.
    assert (formal st !! leaf_name l = None) as Hfree by apply Hreg.
    assert (leaf_name l ∉ map leaf_name ls) as Hnotin.
    { intros Hin. apply list_elem_of_fmap in Hin as (l' & Hn & Hl').
      rewrite Forall_forall in Hall. destruct (Hall _ Hl') as (_ & _ & _ & Hf).
      rewrite <- Hn, lookup_insert_eq in Hf. done. }
    split; [|split; [|split; [|split; [|split]]]].
    + constructor; [done|]. eapply Forall_impl; [exact Hall|].
      intros l' (? & ? & ? & Hf). repeat split; try done.
      apply lookup_insert_None in Hf. by destruct Hf.
    + simpl. by constructor.
    + rewrite Hlk, <- app_assoc. f_equal. unfold envNamesOf. simpl.
      by case_decide.
    + rewrite Hdom, dom_insert_L. simpl.
      by rewrite (comm_L (∪) {[leaf_name l]}), (assoc_L (∪)).
    + rewrite Hsize, map_size_insert_None by done. simpl. lia.
    + intros l' Hl'. apply elem_of_cons in Hl' as [->|Hl']; [|by apply Hflags].
      exists d. split; [done|].
      destruct (runLeaves_mono _ _ _ _ Hrun) as [Hsub _]. simpl in Hsub.
      unfold flagOf. rewrite Hk. simpl.
      eapply lookup_weaken; [|exact Hsub]. by rewrite lookup_insert_eq.
Qed.

(** Leaf fields that can be registered and have different names are run
    to the end. *)
Lemma runLeaves_registrable (ls : list leafField) :
  ∀ st, Forall (registrable env (formal st)) ls → NoDup (map leaf_name ls) →
    ∃ st', runLeaves env ls st = (st', None).
Proof.
  induction ls as [|l ls IH]; intros st Hall Hnd; simpl.
  - eauto.
  - apply Forall_cons in Hall as [Hreg Hall].
    apply NoDup_cons in Hnd as [Hnotin Hnd].
    destruct (scalarStep_registrable _ st Hreg) as (d & k & _ & _ & ->).
    apply IH; [|done]. simpl.
    rewrite Forall_forall in Hall |- *. intros l' Hl'.
    destruct (Hall _ Hl') as (? & ? & ? & Hf). repeat split; try done.
    rewrite lookup_insert_ne; [done|].
    intros Heq. apply Hnotin. rewrite Heq. apply list_elem_of_fmap. eauto.
Qed.

End RunFacts.

(** ** What the walk registers, and how it fails *)

Section WalkMore.
Context {L : GoLib}.
Variable env : gmap string string.

Lemma scalarStep_failed (n : string) (x : path) (fi : finfo) (fv fv' : value)
    (st st' : state) (f : failure) :
  scalarStep env n x fi fv st = (fv', st', Some f) →
  (∃ e, f = Err e ∧ leafError e)
  ∨ (f = Panic PanicAssert
     ∧ kindOf fv = None ∧ is_Some (typeSwitch (TypeString fv)))
  ∨ (f = Panic (PanicBadName n) ∧ flagNameOK n = false)
  ∨ (f = Panic (PanicRedefined n) ∧ is_Some (formal st' !! n)).
Proof.
  rewrite scalarStep_kind. unfold resolveDefault.
  assert (∀ st1 d k,
            (let '(st2, r) := Var k x n d (Get (Tag fi) "usage") st1 in
             (d, st2, r)) = (fv', st', Some f) →
            (f = Panic (PanicBadName n) ∧ flagNameOK n = false)
            ∨ (f = Panic (PanicRedefined n) ∧ is_Some (formal st' !! n)))
    as HVar.
  { intros st1 d k. unfold Var.
    destruct (flagNameOK n); simpl; [|intros [= _ _ <-]; by left].
    destruct (formal st1 !! n) eqn:E; [|done].
    intros [= _ <- <-]. right. by rewrite E. }
  assert (∀ st1,
            kindOf fv = None →
            (fv, st1,
             Some (match typeSwitch (TypeString fv) with
                   | Some _ => Panic PanicAssert
                   | None => Err (ErrUnsupportedStructType (TypeString fv))
                   end)) = (fv', st', Some f) →
            (∃ e, f = Err e ∧ leafError e)
            ∨ (f = Panic PanicAssert
               ∧ kindOf fv = None ∧ is_Some (typeSwitch (TypeString fv))))
    as HSwitch.
  { intros st1 Hk. destruct (typeSwitch (TypeString fv)) as [k|] eqn:Ht;
      intros [= _ _ <-]; [right; eauto|left; by eexists]. }
  case_decide.
  - destruct (lookupEnv _ _ _) as [d|e] eqn:El.
    + destruct (kindOf fv) as [k|] eqn:Hk.
      * assert (Interface fv = fv) as Hi by (by destruct fv).
        rewrite Hi in El. rewrite decide_True by eauto using lookupEnv_kind.
        intros E. right. right. by eapply HVar.
      * intros E. destruct (HSwitch _ eq_refl E); auto.
    + intros [= _ _ <-]. left. eauto using lookupEnv_error.
  - destruct (kindOf fv) as [k|] eqn:Hk.
    + assert (Interface fv = fv) as -> by (by destruct fv).
      rewrite decide_True by done. intros E. right. right. by eapply HVar.
    + intros E. destruct (HSwitch _ eq_refl E); auto.
Qed.

Lemma runLeaves_failed (ls : list leafField) :
  ∀ st st' f, runLeaves env ls st = (st', Some f) →
    ∃ l, l ∈ ls
      ∧ ((∃ e, f = Err (wrapTrail (leaf_trail l) e) ∧ leafError e)
         ∨ (f = Panic PanicAssert
            ∧ kindOf (leaf_val l) = None
            ∧ is_Some (typeSwitch (TypeString (leaf_val l))))
         ∨ (f = Panic (PanicBadName (leaf_name l))
            ∧ flagNameOK (leaf_name l) = false)
         ∨ (f = Panic (PanicRedefined (leaf_name l))
            ∧ is_Some (formal st' !! leaf_name l))).
Proof.
  induction ls as [|l ls IH]; intros st st' f; simpl; [done|].
  destruct (scalarStep env _ _ _ _ st) as [[fv' st1] [f1|]] eqn:E.
  - intros [= <- <-]. exists l. split; [by left|].
    apply scalarStep_failed in E
      as [(e & -> & He)|[(-> & Hk & Ht)|[[-> Hn]|[-> Hn]]]]; simpl; eauto 6.
  - intros Hrun. destruct (IH _ _ _ Hrun) as (l' & Hl' & Hf).
    exists l'. split; [by right|done].
Qed.

(** X5.  A walk that returns nil has registered its leaf fields and
    nothing else: the names of the flag set are those it had and the flag
    names of the leaf fields, which are all different and were not in the
    flag set, so that it has grown by the number of leaf fields; each leaf
    field is registered under its flag name, with its usage text, its
    address, its type and the default the resolver made of its value. *)
Theorem walk_registers (fs : fields) (pfx : string) (here : path)
    (st st' : state) (v' : value) :
  reflectStruct env (VStruct fs) pfx here st = (v', st', None) →
  let ls := leavesOf (VStruct fs) pfx here [] in
  dom (formal st') = dom (formal st) ∪ list_to_set (map leaf_name ls)
  ∧ size (formal st') = (size (formal st) + length ls)%nat
  ∧ NoDup (map leaf_name ls)
  ∧ Forall (λ l, formal st !! leaf_name l = None) ls
  ∧ ∀ l, l ∈ ls →
      ∃ d, resolved env l = inl d ∧ formal st' !! leaf_name l = flagOf l d.
Proof.
  intros E ls. pose proof (reflectStruct_run env _ _ _ _ _ _ _ E) as Hrun.
  fold ls in Hrun.
  destruct (runLeaves_ok env _ _ _ Hrun) as (Hall & Hnd & _ & Hdom & Hsz & Hfl).
  repeat split; try done.
  eapply Forall_impl; [exact Hall|]. by intros l (_ & _ & _ & ?).
Qed.

(** X6.  A walk that returns nil has asked the environment for the
    environment names of its leaf fields that are not annotated [env:"-"],
    once each, in declaration order and depth first. *)
Theorem walk_lookups (fs : fields) (pfx : string) (here : path)
    (st st' : state) (v' : value) :
  reflectStruct env (VStruct fs) pfx here st = (v', st', None) →
  lookups st' = lookups st ++ envNamesOf (leavesOf (VStruct fs) pfx here []).
Proof.
  intros E. pose proof (reflectStruct_run env _ _ _ _ _ _ _ E) as Hrun.
  by destruct (runLeaves_ok env _ _ _ Hrun) as (_ & _ & Hlk & _).
Qed.

(** X7.  However the walk of a struct ends, the flags that were in the flag
    set are still there, unchanged, and the environment lookups made before
    are the first of those made. *)
Theorem walk_keeps (fs : fields) (pfx : string) (here : path)
    (st : state) :
  let '(v', st', r) := reflectStruct env (VStruct fs) pfx here st in
  formal st ⊆ formal st' ∧ lookups st `prefix_of` lookups st'.
Proof.
  destruct (reflectStruct env (VStruct fs) pfx here st) as [[v' st'] r] eqn:E.
  apply reflectStruct_run in E. by eapply runLeaves_mono.
Qed.

(** X8.  The walk of a struct that fails has failed at one of its leaf
    fields, in one of four ways: with an error of the scalar step wrapped
    with the names of the fields around the leaf; with the panic of the
    type assertion on the pointer to the field, whose type is then none of
    the six but prints as one of their names (a [Duration] of another
    package named [time]); with the panic of the flag package for its flag
    name being unacceptable; or with the panic for that name being
    registered already.  A field of one of the six types never fails a
    type assertion, and [NumField] is never reached on what is not a
    struct. *)
Theorem walk_failures (fs : fields) (pfx : string) (here : path)
    (st st' : state) (v' : value) (f : failure) :
  reflectStruct env (VStruct fs) pfx here st = (v', st', Some f) →
  ∃ l, l ∈ leavesOf (VStruct fs) pfx here []
    ∧ ((∃ e, f = Err (wrapTrail (leaf_trail l) e) ∧ leafError e)
       ∨ (f = Panic PanicAssert
          ∧ kindOf (leaf_val l) = None
          ∧ is_Some (typeSwitch (TypeString (leaf_val l))))
       ∨ (f = Panic (PanicBadName (leaf_name l))
          ∧ flagNameOK (leaf_name l) = false)
       ∨ (f = Panic (PanicRedefined (leaf_name l))
          ∧ is_Some (formal st' !! leaf_name l))).
Proof.
  intros E. apply reflectStruct_run in E. by eapply runLeaves_failed.
Qed.

Lemma readConfig_pointer (t : value) (st : state) :
  readConfig env (VPtr (Some t)) st
  = (let '(t', st', r) := reflectStruct env t "" [] st in
     (VPtr (Some t'), st', r)).
Proof. reflexivity. Qed.

Lemma wrapTrail_leaf (trail : list string) (e : error) :
  leafError e → wrapTrail trail e ≠ ErrNotStructPtr.
Proof. destruct trail; simpl; [|done]. by destruct e. Qed.

(** X9.  [readConfig] returns nil exactly when its argument is a non-nil
    pointer to a struct whose leaf fields have different flag names and can
    each be registered: a supported type, a value the resolver accepts, a
    flag name the flag package accepts and the flag set does not have. *)
Theorem readConfig_nil_iff (cfg : value) (st : state) :
  (∃ cfg' st', readConfig env cfg st = (cfg', st', None))
  ↔ ∃ fs, cfg = VPtr (Some (VStruct fs))
          ∧ NoDup (map leaf_name (leavesOf (VStruct fs) "" [] []))
          ∧ Forall (registrable env (formal st)) (leavesOf (VStruct fs) "" [] []).
Proof.
  split.
  - intros (cfg' & st' & E).
    destruct cfg as [| | | | | | |[[| | | | | |fs| | |]|]| |]; try done.
    exists fs. split; [done|]. rewrite readConfig_pointer in E.
    destruct (reflectStruct env (VStruct fs) "" [] st) as [[v1 st1] r1] eqn:Ew.
    injection E as _ <- ->. apply reflectStruct_run in Ew.
    by destruct (runLeaves_ok env _ _ _ Ew) as (Hall & Hnd & _).
  - intros (fs & -> & Hnd & Hall).
    destruct (runLeaves_registrable env _ st Hall Hnd) as [st' Hrun'].
    rewrite readConfig_pointer.
    destruct (reflectStruct env (VStruct fs) "" [] st) as [[v1 st1] r1] eqn:Ew.
    apply reflectStruct_run in Ew. rewrite Hrun' in Ew.
    injection Ew as -> <-. eauto.
Qed.

(** X10.  [readConfig] returns the error "argument is not a struct pointer"
    exactly for what is not a non-nil pointer, and then has touched neither
    the argument nor the flag set; no other argument gets that error. *)
Theorem readConfig_refuses_iff (cfg cfg' : value) (st st' : state) :
  readConfig env cfg st = (cfg', st', Some (Err ErrNotStructPtr))
  ↔ (∀ t, cfg ≠ VPtr (Some t)) ∧ cfg' = cfg ∧ st' = st.
Proof.
  split.
  - destruct cfg as [| | | | | | |[t|]| |];
      try (intros [= <- <-]; by repeat split).
    rewrite readConfig_pointer.
    destruct (reflectStruct env t "" [] st) as [[t' st1] r] eqn:E.
    intros [= _ _ ->]. exfalso.
    destruct t as [| | | | | |fs| | |]; try done.
    apply reflectStruct_run in E.
    destruct (runLeaves_failed _ _ _ _ E) as (l & _ & Hf).
    destruct Hf as [(e & [= He] & Hleaf)|[[[=] _]|[[[=] _]|[[=] _]]]].
    by eapply wrapTrail_leaf.
  - intros (Hn & -> & ->). by apply readConfig_rejects.
Qed.

End WalkMore.

(** ** What the walk leaves as it is *)

Section ShapeFacts.
Context {L : GoLib}.
Variable env : gmap string string.

Lemma skeleton_kind (a b : value) (k : kind) :
  kindOf a = Some k → kindOf b = Some k → skeleton a = skeleton b.
Proof. destruct a, b; simpl; intros; by simplify_eq. Qed.

Lemma scalarStep_skeleton (n : string) (x : path) (fi : finfo) (fv fv' : value)
    (st st' : state) (r : option failure) :
  scalarStep env n x fi fv st = (fv', st', r) → skeleton fv' = skeleton fv.
Proof.
  rewrite scalarStep_kind. unfold resolveDefault.
  set (res := if decide (fst (Lookup (Tag fi) "env") ≠ "-") then _ else _).
  destruct res as [[d|e] st1]; [|by intros [= <- _ _]].
  destruct (kindOf fv) as [k|] eqn:Hk; [|by intros [= <- _ _]].
  case_decide as Hd; [|by intros [= <- _ _]].
  destruct (Var _ _ _ _ _ _) as [st2 r2]. intros [= <- _ _].
  by eapply skeleton_kind.
Qed.

Lemma step_skeleton (pfx : string) (here : path) (i : nat) (fi : finfo)
    (fv fv' : value) (st st' : state) (r : option failure) :
  (∀ sub, nestedIn sub [(fi, fv)] → SkeletonOK env sub) →
  fieldStep env (reflectStruct env) pfx here i fi fv st = (fv', st', r) →
  skeleton fv' = skeleton fv.
Proof.
  intros IH. unfold fieldStep.
  destruct (Exported fi); simpl; [|by intros [= <- _ _]].
  case_decide; [by intros [= <- _ _]|].
  assert (∀ sub, fv = VStruct sub ∨ fv = VPtr (Some (VStruct sub)) →
            SkeletonOK env sub) as IH'.
  { intros sub Hfv. apply IH. exists fi.
    destruct Hfv as [->| ->]; [left|right]; by apply list_elem_of_singleton. }
  destruct fv as [| | | | | |sub|[[| | | | | |sub| | |]|]| |];
    try (by apply scalarStep_skeleton); try (by intros [= <- _ _]).
  - destruct (reflectStruct env (VStruct sub) _ _ st) as [[t' st1] r1] eqn:Er.
    intros [= <- _ _]. by eapply (IH' sub); [left|].
  - destruct (reflectStruct env (VStruct sub) _ _ st) as [[t' st1] r1] eqn:Er.
    intros [= <- _ _]. cbn [skeleton]. do 2 f_equal.
    by eapply (IH' sub); [right|].
Qed.

Lemma loop_skeleton (pfx : string) (here : path) (fs : fields) :
  (∀ sub, nestedIn sub fs → SkeletonOK env sub) →
  ∀ i st fs' st' r,
    reflectFields env pfx here fs i st = (fs', st', r) →
    skeleton (VStruct fs') = skeleton (VStruct fs).
Proof.
  unfold reflectFields.
  induction fs as [|[fi fv] fs IHfs]; intros IH i st fs' st' r.
  - simpl. by intros [= <- _ _].
  - rewrite loopFields_cons.
    destruct (fieldStep _ _ _ _ _ _ _ _) as [[fv1 st1] r1] eqn:Estep.
    assert (skeleton fv1 = skeleton fv) as Hfv.
    { eapply step_skeleton; [|exact Estep].
      intros sub [fj Hin]. apply IH. exists fj.
      destruct Hin as [Hin|Hin]; apply list_elem_of_singleton in Hin;
        [left|right]; rewrite Hin; by left. }
    destruct r1 as [f|].
    + intros [= <- _ _]. cbn [skeleton map fst snd]. by rewrite Hfv.
    + destruct (loopFields _ _ _ _ _ _ _) as [[rest' st2] r2] eqn:Eloop.
      intros [= <- _ _]. cbn [skeleton map fst snd]. rewrite Hfv.
      assert (skeleton (VStruct rest') = skeleton (VStruct fs)) as Hrest.
      { eapply IHfs; [|exact Eloop]. intros sub [fj Hin]. apply IH. exists fj.
        destruct Hin; [left|right]; by right. }
      cbn [skeleton] in Hrest. by injection Hrest as ->.
Qed.

Lemma reflectStruct_skeleton (sub : fields) : SkeletonOK env sub.
Proof.
  induction sub as [sub IH] using walk_ind.
  intros pfx here st v' st' r. rewrite reflectStruct_struct.
  destruct (reflectFields _ _ _ _ _ _) as [[sub' st2] r2] eqn:Eloop.
  intros [= <- _ _]. by eapply loop_skeleton.
Qed.

(** X11.  However [readConfig] ends, the configuration keeps its
    structure: the same fields with the same descriptors in the same
    order, nil pointers nil and the others pointing at a value of the same
    structure, every scalar of the type it had, and what is not of a
    supported type untouched. *)
Theorem readConfig_keeps_structure (cfg : value) (st : state) :
  let '(cfg', st', r) := readConfig env cfg st in
  skeleton cfg' = skeleton cfg.
Proof.
  destruct cfg as [| | | | | | |[t|]| |]; try done.
  rewrite readConfig_pointer.
  destruct (reflectStruct env t "" [] st) as [[t' st1] r] eqn:E.
  destruct t as [| | | | | |fs| | |]; try (by injection E as <- _ _).
  cbn [skeleton]. do 2 f_equal. by eapply reflectStruct_skeleton.
Qed.

End ShapeFacts.

(** ** Fields no flag is bound to *)

Lemma getp_setp_terminal (p : path) (d : value) :
  ∀ q v dp dq,
    getp p v = Some dp → fieldsOf dp = None →
    getp q v = Some dq → fieldsOf dq = None →
    p ≠ q → getp q (setp p d v) = Some dq.
Proof.
  induction p as [|i p IH]; intros q v dp dq Hp Hkp Hq Hkq Hne.
  - injection Hp as ->. destruct q as [|j q]; [done|].
    simpl in Hq. by rewrite Hkp in Hq.
  - simpl in Hp. destruct (fieldsOf v) as [fs|] eqn:Ef; [|done].
    destruct q as [|j q].
    { injection Hq as ->. by rewrite Hkq in Ef. }
    simpl in Hq. simpl. rewrite Ef in Hq.
    rewrite Ef, (fieldsOf_withFields _ _ _ Ef).
    destruct (decide (i = j)) as [->|Hij].
    + rewrite list_lookup_alter_eq. destruct (fs !! j) as [f|] eqn:Ej; [|done].
      simpl. eapply IH; eauto. congruence.
    + by rewrite list_lookup_alter_ne.
Qed.

Section FrameFacts.
Context {L : GoLib}.
Variable env : gmap string string.

Lemma fieldStep_keeps (pfx : string) (here : path) (i : nat) (fi : finfo)
    (fv fv' : value) (st st' : state) (r : option failure) :
  fieldStep env (reflectStruct env) pfx here i fi fv st = (fv', st', r) →
  formal st ⊆ formal st'.
Proof.
  intros E. eapply (step_flat env pfx here []) in E.
  - by apply runLeaves_mono in E as [? _].
  - intros sub _. apply reflectStruct_flat.
Qed.

Lemma reflectFields_keeps (pfx : string) (here : path) (fs fs' : fields)
    (i : nat) (st st' : state) (r : option failure) :
  reflectFields env pfx here fs i st = (fs', st', r) →
  formal st ⊆ formal st'.
Proof.
  intros E. eapply (loop_flat env pfx here []) in E.
  - by apply runLeaves_mono in E as [? _].
  - intros sub _. apply reflectStruct_flat.
Qed.

Lemma step_frame (pfx : string) (here : path) (i : nat) (fi : finfo)
    (fv fv' : value) (st st' : state) :
  (∀ sub, nestedIn sub [(fi, fv)] → FrameOK env sub) →
  fieldStep env (reflectStruct env) pfx here i fi fv st = (fv', st', None) →
  ∀ r d, getp r fv = Some d → fieldsOf d = None →
    (∀ n F, formal st' !! n = Some F → formal st !! n = None →
       Flag_Ptr F ≠ Some (here ++ i :: r)) →
    getp r fv' = Some d.
Proof.
  intros IH Hstep r d Hget Hterm Hfree.
  apply fieldStep_ok in Hstep
    as [[-> ->]|[(sub & t' & Hfv & Hrec)|(Hs & Hp & Hstep)]].
  - done.
  - destruct (reflectStruct_shape _ _ _ _ _ _ _ _ Hrec) as [sub' ->].
    assert (FrameOK env sub) as Hok.
    { apply IH. exists fi. destruct Hfv as [[-> _]|[-> _]]; [left|right];
        by apply list_elem_of_singleton. }
    assert (r ≠ []) as Hr.
    { intros ->. injection Hget as <-. by destruct Hfv as [[-> _]|[-> _]]. }
    assert (getp r (VStruct sub) = Some d) as Hget'.
    { destruct Hfv as [[-> _]|[-> _]]; by rewrite ?getp_ptr in Hget. }
    assert (getp r (VStruct sub') = Some d) as Hres.
    { eapply Hok; eauto. intros n F Hn Hold.
      rewrite <- app_assoc. by eapply Hfree. }
    destruct Hfv as [[_ ->]|[_ ->]]; by rewrite ?getp_ptr.
  - apply scalarStep_ok in Hstep
      as (k & Hk & Hk' & Hnone & Hname & Hformal & _).
    exfalso.
    assert (r = []) as ->.
    { destruct r as [|j r]; [done|]. simpl in Hget.
      by rewrite (kindOf_fieldsOf _ _ Hk) in Hget. }
    pose proof (lookup_insert_eq (formal st) (flagNameOf pfx fi)
                  (mkFlag (flagNameOf pfx fi) (Get (Tag fi) "usage")
                          (Some (here ++ [i])) k fv')) as Hl.
    rewrite <- Hformal in Hl. exact (Hfree _ _ Hl Hnone eq_refl).
Qed.

Lemma loop_frame (pfx : string) (here : path) (fs : fields) :
  (∀ sub, nestedIn sub fs → FrameOK env sub) →
  ∀ pre pre' i st fs' st',
    length pre = i → length pre' = i →
    reflectFields env pfx here fs i st = (fs', st', None) →
    ∀ j r d, (i ≤ j)%nat →
      getp (j :: r) (VStruct (pre ++ fs)) = Some d → fieldsOf d = None →
      (∀ n F, formal st' !! n = Some F → formal st !! n = None →
         Flag_Ptr F ≠ Some (here ++ j :: r)) →
      getp (j :: r) (VStruct (pre' ++ fs')) = Some d.
Proof.
  induction fs as [|[fi fv] fs IHfs];
    intros IH pre pre' i st fs' st' Hi Hi' Hloop j r d Hj Hget Hterm Hfree.
  - simpl in Hget. rewrite app_nil_r, lookup_ge_None_2 in Hget by lia. done.
  - pose proof Hloop as Hloop'. unfold reflectFields in Hloop.
    rewrite loopFields_cons in Hloop.
    destruct (fieldStep _ _ _ _ _ _ _ _) as [[fv1 st1] [f|]] eqn:Estep;
      [done|].
    destruct (loopFields _ _ _ _ _ _ _) as [[rest' st2] r2] eqn:Eloop.
    injection Hloop as <- <- ->.
    assert (∀ sub, nestedIn sub [(fi, fv)] → nestedIn sub ((fi, fv) :: fs))
      as Hin1.
    { intros sub [fj Hin]. exists fj.
      destruct Hin as [Hin|Hin]; apply list_elem_of_singleton in Hin;
        [left|right]; rewrite Hin; by left. }
    assert (∀ sub, nestedIn sub fs → nestedIn sub ((fi, fv) :: fs)) as Hin2.
    { intros sub [fj Hin]. exists fj. destruct Hin; [left|right]; by right. }
    assert (formal st ⊆ formal st1) as Hsub1 by eauto using fieldStep_keeps.
    assert (formal st1 ⊆ formal st2) as Hsub2
      by eauto using reflectFields_keeps.
    destruct (decide (j = i)) as [->|Hne].
    + rewrite (getp_cons _ _ _ (fi, fv)) in Hget
        by (by apply list_lookup_middle).
      rewrite (getp_cons _ _ _ (fi, fv1)) by (by apply list_lookup_middle).
      simpl in *. eapply step_frame; eauto.
      intros n F Hn Hold. apply (Hfree n F); [|done].
      by eapply lookup_weaken.
    + rewrite (cons_middle _ pre), (cons_middle _ pre'), !app_assoc in *.
      eapply (IHfs (λ sub H, IH sub (Hin2 sub H)) _ _ (S i)); eauto.
      * rewrite length_app. simpl. lia.
      * rewrite length_app. simpl. lia.
      * lia.
      * intros n F Hn Hold. apply (Hfree n F); [done|].
        destruct (formal st !! n) eqn:E; [|done].
        pose proof (lookup_weaken _ _ _ _ E Hsub1). congruence.
Qed.

Lemma reflectStruct_frame (sub : fields) : FrameOK env sub.
Proof.
  induction sub as [sub IH] using walk_ind.
  intros pfx here st v' st'. rewrite reflectStruct_struct.
  destruct (reflectFields _ _ _ _ _ _) as [[sub' st2] r2] eqn:Eloop.
  intros [= <- <- ->] r d Hget Hterm Hfree.
  destruct r as [|j r]; [by injection Hget as <-|].
  eapply (loop_frame _ _ _ IH [] [] 0%nat); eauto. lia.
Qed.

End FrameFacts.

Section FrameEntry.
Context {L : GoLib}.
Variable env : gmap string string.

Lemma Parse_frame (fl : gmap string Flag) (args : list (string * string)) :
  ∀ v v', WellBound fl v → Separate fl → Parse fl args v = (v', None) →
    ∀ q d, getp q v = Some d → fieldsOf d = None →
      (∀ n F, fl !! n = Some F → Flag_Ptr F ≠ Some q) →
      getp q v' = Some d.
Proof.
  induction args as [|[m text] args IH]; intros v v' Hwb Hsep.
  - simpl. by intros [= <-].
  - simpl. destruct (fl !! m) as [Fm|] eqn:Hm; [|done].
    destruct (flagSet (Flag_Kind Fm) text) as [d0|] eqn:Hd; [|done].
    intros Hparse q d Hq Hterm Hfree.
    eapply (IH (store Fm d0 v));
      [eauto using store_WellBound, flagSet_kind|done|done| |done|done].
    unfold store. destruct (Flag_Ptr Fm) as [pm|] eqn:Hpm; [|done].
    destruct (Hwb _ _ _ Hm Hpm) as (dm & Hdm & Hkm).
    eapply getp_setp_terminal; eauto using kindOf_fieldsOf.
    intros ->. by eapply Hfree.
Qed.

(** After a walk from a flag set bound outside the configuration, the
    flags bound to the configuration point at values of their type, and no
    two at the same field. *)
Lemma readConfig_bindings (cfg cfg' : value) (st st' : state) :
  (∀ n F, formal st !! n = Some F → Flag_Ptr F = None) →
  readConfig env cfg st = (cfg', st', None) →
  WellBound (formal st') cfg' ∧ Separate (formal st')
  ∧ ∀ n F p, formal st' !! n = Some F → Flag_Ptr F = Some p →
      formal st !! n = None.
Proof.
  intros Hout Hread.
  destruct (readConfig_ok _ _ _ _ _ Hread)
    as (fs & fs' & -> & -> & Hsub & Hnew & Hinj).
  assert (∀ m G q, formal st' !! m = Some G → Flag_Ptr G = Some q →
            formal st !! m = None) as Hfresh.
  { intros m G q Hm Hq. destruct (formal st !! m) as [G0|] eqn:E0; [|done].
    pose proof (lookup_weaken _ _ _ _ E0 Hsub) as E1.
    pose proof (Hout _ _ E0) as Hnone. congruence. }
  split; [|split; [|done]].
  - intros m G q Hm Hq. pose proof (Hfresh _ _ _ Hm Hq) as Hm0.
    destruct (Hnew _ _ Hm Hm0)
      as (j & r & _ & Hq' & fj & dj & _ & Hgp & _ & Hkj & _).
    exists (Flag_Def G). rewrite Hq in Hq'. injection Hq' as ->.
    by rewrite getp_ptr.
  - intros m1 m2 G1 G2 q Hm1 Hm2 Hq1 Hq2. eapply Hinj; eauto. congruence.
Qed.

(** X12.  When [ReadConfig] returns nil, the flags of the command-line flag
    set being bound outside the configuration before the call, every field
    that no flag is bound to holds what it held before the call: the
    unexported fields, those annotated [flag:"-"], and whatever is below
    them. *)
Theorem unbound_fields_kept (cfg cfg' : value) (st st' : state)
    (args : list (string * string)) :
  (∀ n F, formal st !! n = Some F → Flag_Ptr F = None) →
  ReadConfig env cfg st args = (cfg', st', None) →
  ∀ p d, getp p cfg = Some d → fieldsOf d = None →
    (∀ n F, formal st' !! n = Some F → Flag_Ptr F ≠ Some p) →
    getp p cfg' = Some d.
Proof.
  intros Hout. unfold ReadConfig, readConfigWithFlagset.
  destruct (readConfig env cfg st) as [[cfg1 st1] [f|]] eqn:Hread; [done|].
  destruct (Parse (formal st1) args cfg1) as [cfg2 r2] eqn:Hparse.
  intros [= <- <- ->] p d Hget Hterm Hfree.
  destruct (readConfig_bindings _ _ _ _ Hout Hread) as (Hwb & Hsep & _).
  eapply Parse_frame; eauto.
  destruct (readConfig_ok _ _ _ _ _ Hread) as (fs & fs' & -> & -> & _).
  rewrite readConfig_pointer in Hread.
  destruct (reflectStruct env (VStruct fs) "" [] st) as [[t' st2] r] eqn:Ew.
  injection Hread as -> -> ->.
  destruct p as [|j p]; [by injection Hget as <-|].
  rewrite getp_ptr in * by done.
  eapply (reflectStruct_frame env fs _ _ _ _ _ Ew); eauto.
Qed.

End FrameEntry.

(** ** Annotated names *)

Section NameFacts.
Context {L : GoLib}.
Variable env : gmap string string.
Variable rec : value → string → path → state → value * state * option failure.

(** X13.  A scalar field of a supported type with a flag annotation (not
    empty, not [-]): [Var] is called with the kebab form of the prefix
    followed by the annotation as it is written.  The environment is asked
    for the env annotation as it is written when there is one, whatever
    the prefix and the flag name, and otherwise for the upper snake form
    of that flag name. *)
Theorem annotated_scalar_names (pfx : string) (here : path) (i : nat)
    (fi : finfo) (fv : value) (k : kind) (st : state)
    (flagTag envTag : string) (envTagOK : bool) :
  Exported fi = true →
  fst (Lookup (Tag fi) "flag") = flagTag → flagTag ≠ "" → flagTag ≠ "-" →
  Lookup (Tag fi) "env" = (envTag, envTagOK) → envTag ≠ "-" →
  kindOf fv = Some k →
  let flagName := ToKebab pfx +:+ flagTag in
  let envName := if envTagOK then envTag else ToScreamingSnake flagName in
  let st1 := State (formal st) (lookups st ++ [envName]) in
  fieldStep env rec pfx here i fi fv st
  = match lookupEnv env envName fv with
    | inr e => (fv, st1, Some (Err e))
    | inl d =>
        let '(st2, r) :=
          Var k (here ++ [i]) flagName d (Get (Tag fi) "usage") st1 in
        (d, st2, r)
    end.
Proof.
  intros Hex Hflag Hne Hni Henv Hene Hk flagName envName st1.
  rewrite fieldStep_scalar; [|done|by rewrite Hflag|by destruct fv..].
  assert (flagNameOf pfx fi = flagName) as ->.
  { unfold flagNameOf. rewrite Hflag. by rewrite decide_True. }
  rewrite scalarStep_kind. unfold resolveDefault, envNameOf. rewrite Henv.
  simpl. rewrite decide_True by done. fold envName. fold st1.
  assert (Interface fv = fv) as -> by (by destruct fv).
  destruct (lookupEnv env envName fv) as [d|e] eqn:El; [|done].
  rewrite Hk. by rewrite decide_True by eauto using lookupEnv_kind.
Qed.

Lemma Lookup_without_flag (tag : list (string * string)) (key : string) :
  Lookup (filter (λ kv, kv.1 ≠ "flag") tag) key
  = if decide (key = "flag") then ("", false) else Lookup tag key.
Proof.
  induction tag as [|[k v] tag IH]; simpl; [by case_decide|].
  rewrite filter_cons. simpl. destruct (decide (k ≠ "flag")) as [Hk|Hk].
  - simpl. rewrite IH. repeat case_decide; simplify_eq; done.
  - rewrite IH. apply dec_stable in Hk. subst k.
    repeat case_decide; simplify_eq; done.
Qed.

(** X14.  On a field that is neither a struct nor a pointer, a flag
    annotation that is present and empty changes nothing: the step is that
    of the field without the annotation. *)
Theorem empty_flag_on_scalar (pfx : string) (here : path) (i : nat)
    (fi : finfo) (fv : value) (st : state) :
  fst (Lookup (Tag fi) "flag") = "" →
  (∀ fs, fv ≠ VStruct fs) → (∀ t, fv ≠ VPtr t) →
  fieldStep env rec pfx here i fi fv st
  = fieldStep env rec pfx here i (withoutFlagTag fi) fv st.
Proof.
  intros Hflag Hs Hp.
  assert (∀ key, key ≠ "flag" →
            Lookup (Tag (withoutFlagTag fi)) key = Lookup (Tag fi) key) as Hkey.
  { intros key Hkey. simpl. rewrite Lookup_without_flag.
    by rewrite decide_False. }
  assert (fst (Lookup (Tag (withoutFlagTag fi)) "flag") = "") as Hflag'.
  { simpl. by rewrite Lookup_without_flag. }
  destruct (Exported fi) eqn:Hex.
  - rewrite !fieldStep_scalar by (done || by rewrite ?Hflag, ?Hflag').
    assert (flagNameOf pfx (withoutFlagTag fi) = flagNameOf pfx fi) as ->.
    { unfold flagNameOf. by rewrite Hflag, Hflag'. }
    unfold scalarStep, resolveDefault, envNameOf, Get.
    by rewrite !Hkey by done.
  - unfold fieldStep. simpl. by rewrite Hex.
Qed.

End NameFacts.

(** ** A second call *)

Section Again.
Context {L : GoLib}.
Variable env : gmap string string.

Lemma leavesStep_scalar (pfx : string) (here : path) (trail : list string)
    (i : nat) (fi : finfo) (fv : value) (k : kind) :
  Exported fi = true → fst (Lookup (Tag fi) "flag") ≠ "-" →
  kindOf fv = Some k →
  leavesStep leavesOf pfx here trail i fi fv
  = [LeafField (here ++ [i]) (flagNameOf pfx fi) fi fv trail].
Proof.
  intros Hex Hflag Hk. unfold leavesStep. rewrite Hex. simpl.
  rewrite decide_False by done. by destruct fv.
Qed.

Lemma step_after_scalar (pfx : string) (here : path) (trail : list string)
    (i : nat) (fi : finfo) (fv fv' : value) (st st' : state) :
  Exported fi = true → fst (Lookup (Tag fi) "flag") ≠ "-" →
  (∀ fs, fv ≠ VStruct fs) → (∀ t, fv ≠ VPtr t) →
  fieldStep env (reflectStruct env) pfx here i fi fv st = (fv', st', None) →
  leavesStep leavesOf pfx here trail i fi fv'
  = map (settle env) (leavesStep leavesOf pfx here trail i fi fv).
Proof.
  intros Hex Hflag Hs Hp Hstep. rewrite fieldStep_scalar in Hstep by done.
  apply scalarStep_ok in Hstep as (k & Hk & Hk' & _ & _ & _ & Hoff & Hon).
  rewrite !(leavesStep_scalar _ _ _ _ _ _ k) by done. simpl.
  unfold settle, resolved. simpl. f_equal. f_equal.
  case_decide as Henv.
  - by destruct (Hoff Henv) as [-> _].
  - by destruct (Hon Henv) as [-> _].
Qed.

Lemma step_after (pfx : string) (here : path) (trail : list string) (i : nat)
    (fi : finfo) (fv fv' : value) (st st' : state) :
  (∀ sub, nestedIn sub [(fi, fv)] → AfterOK env sub) →
  fieldStep env (reflectStruct env) pfx here i fi fv st = (fv', st', None) →
  leavesStep leavesOf pfx here trail i fi fv'
  = map (settle env) (leavesStep leavesOf pfx here trail i fi fv).
Proof.
  intros IH Hstep.
  destruct (Exported fi) eqn:Hex; [|unfold leavesStep; by rewrite Hex].
  destruct (decide (fst (Lookup (Tag fi) "flag") = "-")) as [Hflag|Hflag].
  { unfold leavesStep. rewrite Hex. simpl. by rewrite !decide_True. }
  assert (∀ sub, fv = VStruct sub ∨ fv = VPtr (Some (VStruct sub)) →
            AfterOK env sub) as IH'.
  { intros sub Hfv. apply IH. exists fi.
    destruct Hfv as [->| ->]; [left|right]; by apply list_elem_of_singleton. }
  destruct fv as [| | | | | |sub|[[| | | | | |sub| | |]|]| |];
    try (by eapply step_after_scalar; [done|done|done|done|exact Hstep]).
  all: unfold fieldStep in Hstep; rewrite Hex in Hstep; cbn [negb] in Hstep;
    rewrite decide_False in Hstep by done;
    try (injection Hstep as <- <-; unfold leavesStep; rewrite Hex; cbn [negb];
         by rewrite decide_False by done).
  - destruct (reflectStruct env (VStruct sub) _ _ st) as [[t1 st1] r1] eqn:Er.
    injection Hstep as <- <- Hr. destruct r1 as [[]|]; try done.
    destruct (reflectStruct_shape _ _ _ _ _ _ _ _ Er) as [sub' ->].
    unfold leavesStep. rewrite Hex. cbn [negb]. rewrite !decide_False by done.
    by eapply (IH' sub); [left|].
  - destruct (reflectStruct env (VStruct sub) _ _ st) as [[t1 st1] r1] eqn:Er.
    injection Hstep as <- <- Hr. destruct r1 as [[]|]; try done.
    destruct (reflectStruct_shape _ _ _ _ _ _ _ _ Er) as [sub' ->].
    unfold leavesStep. rewrite Hex. cbn [negb]. rewrite !decide_False by done.
    by eapply (IH' sub); [right|].
Qed.

Lemma loop_after (pfx : string) (here : path) (trail : list string)
    (fs : fields) :
  (∀ sub, nestedIn sub fs → AfterOK env sub) →
  ∀ i st fs' st',
    reflectFields env pfx here fs i st = (fs', st', None) →
    leavesLoop leavesOf pfx here trail fs' i
    = map (settle env) (leavesLoop leavesOf pfx here trail fs i).
Proof.
  unfold reflectFields.
  induction fs as [|[fi fv] fs IHfs]; intros IH i st fs' st'.
  - simpl. by intros [= <- _].
  - rewrite loopFields_cons.
    destruct (fieldStep _ _ _ _ _ _ _ _) as [[fv1 st1] [f|]] eqn:Estep;
      [done|].
    destruct (loopFields _ _ _ _ _ _ _) as [[rest' st2] r2] eqn:Eloop.
    intros [= <- _ ->]. simpl. rewrite map_app. f_equal.
    + eapply step_after; [|exact Estep].
      intros sub [fj Hin]. apply IH. exists fj.
      destruct Hin as [Hin|Hin]; apply list_elem_of_singleton in Hin;
        [left|right]; rewrite Hin; by left.
    + eapply IHfs; [|exact Eloop]. intros sub [fj Hin]. apply IH. exists fj.
      destruct Hin; [left|right]; by right.
Qed.

Lemma reflectStruct_after (sub : fields) : AfterOK env sub.
Proof.
  induction sub as [sub IH] using walk_ind.
  intros pfx here trail st v' st'. rewrite reflectStruct_struct.
  destruct (reflectFields _ _ _ _ _ _) as [[sub' st2] r2] eqn:Eloop.
  intros [= <- _ ->]. rewrite !leavesOf_struct. by eapply loop_after.
Qed.

(** The leaf fields a run has registered cannot be run again: the first
    finds its name in the flag set. *)
Lemma runLeaves_again (l : leafField) (ls : list leafField) (st st' : state) :
  runLeaves env (l :: ls) st = (st', None) →
  ∃ st'', runLeaves env (map (settle env) (l :: ls)) st'
          = (st'', Some (Panic (PanicRedefined (leaf_name l)))).
Proof.
  intros Hrun.
  destruct (runLeaves_ok env _ _ _ Hrun) as (Hall & _ & _ & _ & _ & Hfl).
  apply Forall_cons in Hall as [([k Hk] & [d Hd] & Hok & Hfree) _].
  destruct (Hfl l) as (d' & Hd' & Hflag); [by left|].
  rewrite Hd in Hd'. injection Hd' as <-.
  unfold flagOf in Hflag. rewrite Hk in Hflag. simpl in Hflag.
  simpl. unfold settle. simpl. rewrite Hd.
  rewrite scalarStep_kind. unfold resolveDefault.
  assert (kindOf d = Some k) as Hkd.
  { unfold resolved in Hd. case_decide; [by injection Hd as <-|].
    eauto using lookupEnv_kind. }
  assert (Interface d = d) as -> by (by destruct d).
  assert (∀ st1, formal st1 = formal st' →
            Var k (leaf_path l) (leaf_name l) d
                (Get (Tag (leaf_info l)) "usage") st1
            = (st1, Some (Panic (PanicRedefined (leaf_name l))))) as HVar.
  { intros st1 Hst1. unfold Var. rewrite Hok. simpl. by rewrite Hst1, Hflag. }
  unfold resolved in Hd. case_decide as Henv.
  - rewrite decide_False by naive_solver. rewrite Hkd.
    rewrite decide_True by done. rewrite HVar by done. eauto.
  - rewrite decide_True by done.
    rewrite (lookupEnv_again _ _ _ _ Hd), Hkd.
    rewrite decide_True by done. rewrite HVar by done. eauto.
Qed.

(** X15.  A second call on the same flag set does not go through: when
    [readConfig] has returned nil and registered a flag, calling it again
    with the configuration and the flag set it left panics, the flag
    package finding the flag of the first leaf field redefined. *)
Theorem readConfig_twice (cfg cfg' : value) (st st' : state) :
  readConfig env cfg st = (cfg', st', None) →
  formal st' ≠ formal st →
  ∃ n cfg'' st'',
    readConfig env cfg' st' = (cfg'', st'', Some (Panic (PanicRedefined n)))
    ∧ formal st !! n = None ∧ is_Some (formal st' !! n).
Proof.
  intros Hread Hnew.
  destruct (readConfig_ok _ _ _ _ _ Hread) as (fs & fs' & -> & -> & _).
  rewrite readConfig_pointer in Hread.
  destruct (reflectStruct env (VStruct fs) "" [] st) as [[t' st1] r] eqn:Ew.
  injection Hread as -> -> ->.
  pose proof (reflectStruct_after fs _ _ [] _ _ _ Ew) as Hafter.
  pose proof (reflectStruct_run env _ _ _ _ _ _ _ Ew) as Hrun.
  destruct (leavesOf (VStruct fs) "" [] []) as [|l ls] eqn:Hls.
  { simpl in Hrun. by injection Hrun as ->. }
  destruct (runLeaves_again _ _ _ _ Hrun) as [st'' Hrun2].
  destruct (runLeaves_ok env _ _ _ Hrun) as (Hall & _ & _ & _ & _ & Hfl).
  apply Forall_cons in Hall as [(Hk & _ & _ & Hfree) _].
  destruct (Hfl l) as (d & _ & Hflag); [by left|].
  rewrite readConfig_pointer.
  destruct (reflectStruct env (VStruct fs') "" [] st') as [[t2 st2] r2] eqn:Ew2.
  apply reflectStruct_run in Ew2. rewrite Hafter, Hrun2 in Ew2.
  injection Ew2 as <- <-.
  exists (leaf_name l), (VPtr (Some t2)), st''. split; [done|].
  split; [done|]. rewrite Hflag. unfold flagOf.
  destruct Hk as [k ->]. simpl. eauto.
Qed.

End Again.

(** ** The helper of the tests *)

Lemma found_iff (flags : list Flag) (flagName : string) :
  found flags flagName = true ↔ ∃ f, f ∈ flags ∧ Flag_Name f = flagName.
Proof.
  induction flags as [|f flags IH]; simpl.
  - split; [done|]. intros (f & Hf & _). by apply not_elem_of_nil in Hf.
  - case_decide as Hn.
    + split; [|done]. intros _. exists f. split; [by left|done].
    + rewrite IH. split.
      * intros (g & Hg & Hgn). exists g. split; [by right|done].
      * intros (g & Hg & Hgn). apply elem_of_cons in Hg as [->|Hg]; [done|].
        eauto.
Qed.

Lemma checkFlags_spec (flags : list Flag) (names : list string) :
  checkFlags flags names = true
  ↔ ∀ n, n ∈ names → ∃ f, f ∈ flags ∧ Flag_Name f = n.
Proof.
  induction names as [|n names IH]; simpl.
  - split; [|done]. intros _ n Hn. by apply not_elem_of_nil in Hn.
  - destruct (found flags n) eqn:Hf; simpl.
    + rewrite IH. apply found_iff in Hf. split.
      * intros H m Hm. apply elem_of_cons in Hm as [->|Hm]; eauto.
      * intros H m Hm. apply H. by right.
    + split; [done|]. intros H. exfalso.
      assert (found flags n = true) as Ht
        by (apply found_iff, H; by left).
      congruence.
Qed.

(** X16.  [checkFlags] returns true exactly when every name is the name of
    one of the flags; in particular for no names at all, whatever the
    flags. *)
Theorem checkFlags_iff (flags : list Flag) (names : list string) :
  checkFlags flags names = true
  ↔ ∀ n, n ∈ names → ∃ f, f ∈ flags ∧ Flag_Name f = n.
Proof.
  induction names as [|n names IH]; simpl.
  - split; [|done]. intros _ n Hn. by apply not_elem_of_nil in Hn.
  - destruct (found flags n) eqn:Hf; simpl.
    + rewrite IH. apply found_iff in Hf. split.
      * intros H m Hm. apply elem_of_cons in Hm as [->|Hm]; eauto.
      * intros H m Hm. apply H. by right.
    + split; [done|]. intros H. exfalso.
      destruct (H n) as (f & Hin & Hname); [by left|].
      assert (found flags n = true) as Ht by (apply found_iff; eauto).
      congruence.
Qed.

Section TestsAlways.
Context {L : GoLib}.
Variable env : gmap string string.

(** X17.  What the tests check of their configurations holds of every
    one: after a walk from an empty flag set that returns nil, the flags
    visited, in whatever order, are as many as the leaf fields, and
    [checkFlags] finds the flag name of every leaf field among them. *)
Theorem tests_always_pass (fs : fields) (pfx : string) (here : path)
    (st st' : state) (v' : value) (flags : list Flag) :
  formal st = ∅ →
  reflectStruct env (VStruct fs) pfx here st = (v', st', None) →
  flags ≡ₚ (map_to_list (formal st')).*2 →
  length flags = length (leavesOf (VStruct fs) pfx here [])
  ∧ checkFlags flags (map leaf_name (leavesOf (VStruct fs) pfx here [])) = true.
Proof.
  intros Hempty Ew Hperm.
  apply reflectStruct_run in Ew.
  destruct (runLeaves_ok env _ _ _ Ew) as (Hall & _ & _ & _ & Hsize & Hfl).
  rewrite Hempty, map_size_empty in Hsize. split.
  - rewrite Hperm, length_fmap, length_map_to_list. done.
  - apply checkFlags_spec. intros n Hn.
    apply list_elem_of_fmap in Hn as (l & -> & Hl).
    destruct (Hfl l Hl) as (d & _ & Hflag).
    rewrite Forall_forall in Hall. destruct (Hall l Hl) as ([k Hk] & _).
    unfold flagOf in Hflag. rewrite Hk in Hflag. simpl in Hflag.
    apply elem_of_map_to_list in Hflag.
    eexists. split.
    + rewrite Hperm. apply list_elem_of_fmap. eexists.
      split; [|exact Hflag]. reflexivity.
    + done.
Qed.

End TestsAlways.

(** ** The other panic of the entry point *)

Section EntryMore.
Context {L : GoLib}.
Variable env : gmap string string.

(** X18.  [readConfig] panics in [NumField] exactly for a non-nil pointer
    to what is not a struct, the argument and the flag set untouched; the
    walk of a struct never panics there. *)
Theorem readConfig_NumField_iff (cfg cfg' : value) (st st' : state) :
  readConfig env cfg st = (cfg', st', Some (Panic PanicNumField))
  ↔ (∃ t, cfg = VPtr (Some t) ∧ ∀ fs, t ≠ VStruct fs) ∧ cfg' = cfg ∧ st' = st.
Proof.
  split.
  - destruct cfg as [| | | | | | |[t|]| |]; try done.
    rewrite readConfig_pointer.
    destruct (reflectStruct env t "" [] st) as [[t' st1] r] eqn:E.
    intros [= <- <- ->].
    destruct t as [| | | | | |fs| | |];
      try (injection E as <- <-; split; [eexists; split; [done|done]|done]).
    exfalso. apply reflectStruct_run in E.
    destruct (runLeaves_failed _ _ _ _ _ E) as (l & _ & Hf).
    by destruct Hf as [(e & [=] & _)|[[[=] _]|[[[=] _]|[[=] _]]]].
  - intros ((t & -> & Ht) & -> & ->). by apply readConfig_not_struct.
Qed.

End EntryMore.

(** ** What a walk that fails has done *)

Section Partial.
Context {L : GoLib}.
Variable env : gmap string string.

Lemma scalarStep_failed_formal (n : string) (x : path) (fi : finfo)
    (fv fv' : value) (st st' : state) (f : failure) :
  scalarStep env n x fi fv st = (fv', st', Some f) → formal st' = formal st.
Proof.
  rewrite scalarStep_kind. unfold resolveDefault.
  set (res := if decide (fst (Lookup (Tag fi) "env") ≠ "-") then _ else _).
  assert (formal res.2 = formal st) as Hres.
  { unfold res. by case_decide. }
  destruct res as [[d|e] st1]; simpl in Hres; [|by intros [= _ <- _]].
  destruct (kindOf fv) as [k|]; [|by intros [= _ <- _]].
  case_decide; [|by intros [= _ <- _]].
  unfold Var. destruct (flagNameOK n); simpl; [|by intros [= _ <- _]].
  destruct (formal st1 !! n); [by intros [= _ <- _]|done].
Qed.

Lemma runLeaves_failed_split (ls : list leafField) :
  ∀ st st' f, runLeaves env ls st = (st', Some f) →
    ∃ ls1 l ls2 st1,
      ls = ls1 ++ l :: ls2
      ∧ runLeaves env ls1 st = (st1, None)
      ∧ formal st' = formal st1.
Proof.
  induction ls as [|l ls IH]; intros st st' f; simpl; [done|].
  destruct (scalarStep env _ _ _ _ st) as [[fv' st1] [f1|]] eqn:E.
  - intros [= <- _]. exists [], l, ls, st. simpl.
    eauto using scalarStep_failed_formal.
  - intros Hrun.
    destruct (IH _ _ _ Hrun) as (ls1 & l' & ls2 & st2 & -> & Hrun1 & Hf).
    exists (l :: ls1), l', ls2, st2. simpl. by rewrite E.
Qed.

(** X19.  A walk that fails is not rolled back: the leaf fields before the
    one it failed at are registered, each under its flag name, and they
    are the only flags it has added. *)
Theorem walk_failure_partial (fs : fields) (pfx : string) (here : path)
    (st st' : state) (v' : value) (f : failure) :
  reflectStruct env (VStruct fs) pfx here st = (v', st', Some f) →
  ∃ ls1 l ls2,
    leavesOf (VStruct fs) pfx here [] = ls1 ++ l :: ls2
    ∧ dom (formal st') = dom (formal st) ∪ list_to_set (map leaf_name ls1)
    ∧ size (formal st') = (size (formal st) + length ls1)%nat
    ∧ ∀ l1, l1 ∈ ls1 →
        ∃ d, resolved env l1 = inl d ∧ formal st' !! leaf_name l1 = flagOf l1 d.
Proof.
  intros E. apply reflectStruct_run in E.
  destruct (runLeaves_failed_split _ _ _ _ E)
    as (ls1 & l & ls2 & st1 & Hls & Hrun1 & Hf).
  destruct (runLeaves_ok env _ _ _ Hrun1) as (_ & _ & _ & Hdom & Hsz & Hfl).
  exists ls1, l, ls2. rewrite Hf. done.
Qed.

End Partial.

(** ** The walk fails fast *)

Section FailFast.
Context {L : GoLib}.
Variable env : gmap string string.

Lemma loop_placed (pfx : string) (here : path) (trail : list string)
    (fs : fields) (l : leafField) :
  (∀ sub, nestedIn sub fs → PlacedOK sub) →
  ∀ rest i,
    (∀ k f, rest !! k = Some f → fs !! (i + k)%nat = Some f) →
    l ∈ leavesLoop leavesOf pfx here trail rest i →
    ∃ r j names,
      leaf_path l = here ++ r ++ [j]
      ∧ namesAlong r (VStruct fs) = Some names
      ∧ leaf_trail l = trail ++ names
      ∧ getf (r ++ [j]) (VStruct fs) = Some (leaf_info l, leaf_val l).
Proof.
  intros IH. induction rest as [|[fi fv] rest IHrest]; intros i Hsuf; simpl.
  - intros Hin. by apply elem_of_nil in Hin.
  - assert (fs !! i = Some (fi, fv)) as Hi.
    { rewrite <- (Nat.add_0_r i). by apply Hsuf. }
    intros [Hin|Hin]%elem_of_app.
    + unfold leavesStep in Hin.
      destruct (Exported fi); simpl in Hin; [|by apply elem_of_nil in Hin].
      case_decide as Hflag; [by apply elem_of_nil in Hin|].
      assert (∀ sub, fv = VStruct sub ∨ fv = VPtr (Some (VStruct sub)) →
                l ∈ leavesOf (VStruct sub)
                      (childPrefix (flagNameOf pfx fi) fi) (here ++ [i])
                      (trail ++ [Name fi]) →
                ∃ r j names,
                  leaf_path l = here ++ r ++ [j]
                  ∧ namesAlong r (VStruct fs) = Some names
                  ∧ leaf_trail l = trail ++ names
                  ∧ getf (r ++ [j]) (VStruct fs)
                    = Some (leaf_info l, leaf_val l)) as Hnest.
      { intros sub Hfv Hl.
        assert (nestedIn sub fs) as Hsub.
        { exists fi. destruct Hfv as [->| ->]; [left|right];
            apply list_elem_of_lookup; eauto. }
        destruct (IH sub Hsub _ _ _ _ Hl)
          as (r & j & names & Hp & Hn & Ht & Hg).
        exists (i :: r), j, (Name fi :: names).
        split; [by rewrite Hp, <- !app_assoc|].
        split; [|split].
        - simpl. rewrite Hi. simpl.
          destruct Hfv as [->| ->]; rewrite ?namesAlong_ptr, Hn; done.
        - by rewrite Ht, <- app_assoc.
        - rewrite <- app_comm_cons, (getf_cons _ _ _ _ Hi) by (by destruct r).
          simpl. destruct Hfv as [->| ->]; rewrite ?getf_ptr; done. }
      assert (l = LeafField (here ++ [i]) (flagNameOf pfx fi) fi fv trail →
                ∃ r j names,
                  leaf_path l = here ++ r ++ [j]
                  ∧ namesAlong r (VStruct fs) = Some names
                  ∧ leaf_trail l = trail ++ names
                  ∧ getf (r ++ [j]) (VStruct fs)
                    = Some (leaf_info l, leaf_val l)) as Hleaf.
      { intros ->. exists [], i, []. simpl app.
        rewrite getf_single, app_nil_r. done. }
      destruct fv as [| | | | | |sub|[[| | | | | |sub| | |]|]| |];
        try (apply list_elem_of_singleton in Hin; by apply Hleaf);
        try (by apply elem_of_nil in Hin).
      * apply (Hnest sub); auto.
      * apply (Hnest sub); auto.
    + apply (IHrest (S i)); [|done]. intros k f Hk.
      replace (S i + k)%nat with (i + S k)%nat by lia. by apply Hsuf.
Qed.

Lemma leavesOf_placed (sub : fields) : PlacedOK sub.
Proof.
  induction sub as [sub IH] using walk_ind.
  intros pfx here trail l. rewrite leavesOf_struct.
  by apply loop_placed.
Qed.

Lemma leavesAfter_app (l1 l2 : list leafField) (st : state) :
  leavesAfter env (l1 ++ l2) st
  = leavesAfter env l1 st
    ++ (let '(st1, r) := runLeaves env l1 st in
        match r with
        | Some _ => l2
        | None => leavesAfter env l2 st1
        end).
Proof.
  revert st. induction l1 as [|l l1 IH]; intros st; simpl; [done|].
  destruct (scalarStep env _ _ _ _ st) as [[fv' st1] [f|]]; simpl; [done|].
  by rewrite IH.
Qed.

(** After a run that went through, each leaf field holds what the resolver
    made of its value. *)
Lemma leavesAfter_ok (ls : list leafField) :
  ∀ st st', runLeaves env ls st = (st', None) →
    leavesAfter env ls st = map (settle env) ls.
Proof.
  induction ls as [|l ls IH]; intros st st'; simpl; [done|].
  destruct (scalarStep env _ _ _ _ st) as [[fv' st1] [f|]] eqn:E; [done|].
  intros Hrun. rewrite (IH _ _ Hrun). f_equal.
  apply scalarStep_ok in E as (k & Hk & Hk' & _ & _ & _ & Hoff & Hon).
  unfold settle, resolved. f_equal.
  case_decide as Henv.
  - by destruct (Hoff Henv) as [-> _].
  - by destruct (Hon Henv) as [-> _].
Qed.

(** A scalar step that returns an error has left the field as it was. *)
Lemma scalarStep_error_keeps (n : string) (x : path) (fi : finfo)
    (fv fv' : value) (st st' : state) (e : error) :
  scalarStep env n x fi fv st = (fv', st', Some (Err e)) → fv' = fv.
Proof.
  rewrite scalarStep_kind. unfold resolveDefault.
  set (res := if decide (fst (Lookup (Tag fi) "env") ≠ "-") then _ else _).
  destruct res as [[d|e'] st1]; [|by intros [= <- _ _]].
  destruct (kindOf fv) as [k|]; [|by intros [= <- _ _]].
  case_decide; [|by intros [= <- _ _]].
  unfold Var. destruct (flagNameOK n); simpl; [|done].
  by destruct (formal st1 !! n).
Qed.

Lemma step_afterRun (pfx : string) (here : path) (trail : list string)
    (i : nat) (fi : finfo) (fv fv' : value) (st st' : state)
    (r : option failure) :
  (∀ sub, nestedIn sub [(fi, fv)] → AfterRunOK env sub) →
  fieldStep env (reflectStruct env) pfx here i fi fv st = (fv', st', r) →
  leavesStep leavesOf pfx here trail i fi fv'
  = leavesAfter env (leavesStep leavesOf pfx here trail i fi fv) st.
Proof.
  intros IH Hstep.
  destruct (Exported fi) eqn:Hex;
    [|unfold fieldStep in Hstep; unfold leavesStep; rewrite Hex in *;
      by injection Hstep as <- _ _].
  destruct (decide (fst (Lookup (Tag fi) "flag") = "-")) as [Hflag|Hflag].
  { unfold leavesStep. rewrite Hex. simpl. by rewrite !decide_True. }
  assert (∀ sub, fv = VStruct sub ∨ fv = VPtr (Some (VStruct sub)) →
            AfterRunOK env sub) as IH'.
  { intros sub Hfv. apply IH. exists fi.
    destruct Hfv as [->| ->]; [left|right]; by apply list_elem_of_singleton. }
  assert ((∀ fs, fv ≠ VStruct fs) → (∀ t, fv ≠ VPtr t) →
          leavesStep leavesOf pfx here trail i fi fv'
          = leavesAfter env (leavesStep leavesOf pfx here trail i fi fv) st)
    as Hscalar.
  { intros Hs Hp. rewrite fieldStep_scalar in Hstep by done.
    pose proof (scalarStep_skeleton _ _ _ _ _ _ _ _ _ Hstep) as Hsk.
    unfold leavesStep. rewrite Hex. cbn [negb]. rewrite !decide_False by done.
    assert (∀ a, leavesAfter env
                   [LeafField (here ++ [i]) (flagNameOf pfx fi) fi fv a] st
                 = [LeafField (here ++ [i]) (flagNameOf pfx fi) fi fv' a])
      as Hone.
    { intros a. simpl. rewrite Hstep. by destruct r. }
    destruct fv as [| | | | | |sub|t| |]; try (by destruct (Hs sub));
      try (by destruct (Hp t));
      destruct fv' as [| | | | | |sub'|[t'|]| |]; try discriminate Hsk;
      by rewrite Hone. }
  destruct fv as [| | | | | |sub|[[| | | | | |sub| | |]|]| |];
    try (by apply Hscalar).
  all: unfold fieldStep in Hstep; rewrite Hex in Hstep; cbn [negb] in Hstep;
    rewrite decide_False in Hstep by done;
    try (injection Hstep as <- <- _; unfold leavesStep; rewrite Hex; cbn [negb];
         by rewrite decide_False by done).
  - destruct (reflectStruct env (VStruct sub) _ _ st) as [[t1 st1] r1] eqn:Er.
    injection Hstep as <- <- _.
    destruct (reflectStruct_shape _ _ _ _ _ _ _ _ Er) as [sub' ->].
    unfold leavesStep. rewrite Hex. cbn [negb]. rewrite !decide_False by done.
    by eapply (IH' sub); [left|].
  - destruct (reflectStruct env (VStruct sub) _ _ st) as [[t1 st1] r1] eqn:Er.
    injection Hstep as <- <- _.
    destruct (reflectStruct_shape _ _ _ _ _ _ _ _ Er) as [sub' ->].
    unfold leavesStep. rewrite Hex. cbn [negb]. rewrite !decide_False by done.
    by eapply (IH' sub); [right|].
Qed.

Lemma loop_afterRun (pfx : string) (here : path) (trail : list string)
    (fs : fields) :
  (∀ sub, nestedIn sub fs → AfterRunOK env sub) →
  ∀ i st fs' st' r,
    reflectFields env pfx here fs i st = (fs', st', r) →
    leavesLoop leavesOf pfx here trail fs' i
    = leavesAfter env (leavesLoop leavesOf pfx here trail fs i) st.
Proof.
  unfold reflectFields.
  induction fs as [|[fi fv] fs IHfs]; intros IH i st fs' st' r.
  - simpl. by intros [= <- _ _].
  - rewrite loopFields_cons. simpl leavesLoop. rewrite leavesAfter_app.
    destruct (fieldStep _ _ _ _ _ _ _ _) as [[fv1 st1] r1] eqn:Estep.
    erewrite (step_flat env pfx here trail i fi fv); [|
      intros sub _; apply reflectStruct_flat | exact Estep].
    assert (leavesStep leavesOf pfx here trail i fi fv1
            = leavesAfter env (leavesStep leavesOf pfx here trail i fi fv) st)
      as Hhead.
    { eapply step_afterRun; [|exact Estep].
      intros sub [fj Hin]. apply IH. exists fj.
      destruct Hin as [Hin|Hin]; apply list_elem_of_singleton in Hin;
        [left|right]; rewrite Hin; by left. }
    destruct r1 as [f|]; simpl.
    + intros [= <- _ _]. simpl. by rewrite Hhead.
    + destruct (loopFields _ _ _ _ _ _ _) as [[rest' st2] r2] eqn:Eloop.
      intros [= <- _ _]. simpl. rewrite Hhead. f_equal.
      eapply IHfs; [|exact Eloop].
      intros sub [fj Hin]. apply IH. exists fj.
      destruct Hin; [left|right]; by right.
Qed.

Lemma reflectStruct_afterRun (sub : fields) : AfterRunOK env sub.
Proof.
  induction sub as [sub IH] using walk_ind.
  intros pfx here trail st v' st' r. rewrite reflectStruct_struct.
  destruct (reflectFields _ _ _ _ _ _) as [[sub' st2] r2] eqn:Eloop.
  intros [= <- _ _]. rewrite !leavesOf_struct. by eapply loop_afterRun.
Qed.

(** C6.  The walk is fail-fast.  Let [l] be a leaf field of the struct, at
    any depth, such that the leaf fields before it, in declaration order
    and depth first, are stepped without failure.  Then:
    - [l] is a field of the struct, and its trail is the names of the
      nested fields its path goes through, one for each level of nesting
      above it, the outermost first;
    - when the resolver fails on its value, its step returns the resolver's
      error, the field being as it was;
    - when its step returns an error, the walk of the whole struct returns
      that error wrapped, at each level of nesting above the field, with
      the name of the field walked at that level, and nothing is done
      after it: the state is the one the failing step left, with no flag
      for [l]; the leaf fields before [l] hold what the resolver made of
      them, [l] and all the leaf fields after it are as they were. *)
Theorem fail_fast (fs : fields) (pfx : string) (here : path) (st st1 : state)
    (ls1 ls2 : list leafField) (l : leafField) :
  leavesOf (VStruct fs) pfx here [] = ls1 ++ l :: ls2 →
  runLeaves env ls1 st = (st1, None) →
  let envName := envNameOf (leaf_name l) (leaf_info l) in
  let step :=
    scalarStep env (leaf_name l) (leaf_path l) (leaf_info l) (leaf_val l) st1 in
  (∃ r j, leaf_path l = here ++ r ++ [j]
          ∧ getf (r ++ [j]) (VStruct fs) = Some (leaf_info l, leaf_val l)
          ∧ namesAlong r (VStruct fs) = Some (leaf_trail l))
  ∧ (∀ e, fst (Lookup (Tag (leaf_info l)) "env") ≠ "-" →
       lookupEnv env envName (Interface (leaf_val l)) = inr e →
       step = (leaf_val l, State (formal st1) (lookups st1 ++ [envName]),
               Some (Err e)))
  ∧ (∀ fv' st2 e, step = (fv', st2, Some (Err e)) →
       leafError e
       ∧ formal st2 = formal st1
       ∧ ∃ v', reflectStruct env (VStruct fs) pfx here st
               = (v', st2, Some (Err (wrapTrail (leaf_trail l) e)))
               ∧ leavesOf v' pfx here [] = map (settle env) ls1 ++ l :: ls2).
Proof.
  intros Hls Hrun envName step. split; [|split].
  - destruct (leavesOf_placed fs pfx here [] l)
      as (r & j & names & Hp & Hn & Ht & Hg).
    { rewrite Hls. apply elem_of_app. right. by left. }
    exists r, j. simpl in Ht. by rewrite Ht.
  - intros e Henv Hres. unfold step, scalarStep, resolveDefault.
    rewrite decide_True by done. fold envName. by rewrite Hres.
  - intros fv' st2 e Hstep.
    split; [by eapply scalarStep_error|].
    split; [by eapply scalarStep_failed_formal|].
    destruct (reflectStruct env (VStruct fs) pfx here st) as [[v' st'] r]
      eqn:E.
    pose proof (reflectStruct_afterRun fs _ _ [] _ _ _ _ E) as Hafter.
    apply reflectStruct_run in E.
    rewrite Hls in E, Hafter.
    rewrite runLeaves_app, Hrun in E. simpl in E. fold step in E.
    rewrite Hstep in E. injection E as <- <-.
    exists v'. split; [done|].
    rewrite Hafter, leavesAfter_app, Hrun, (leavesAfter_ok _ _ _ Hrun).
    simpl. fold step. rewrite Hstep.
    apply scalarStep_error_keeps in Hstep as ->. by destruct l.
Qed.

End FailFast.

(** ** The further properties at work *)

Module WitnessMore.
Import Sample.

Lemma lookupEnv_same_type_witness :
  lookupEnv ageEnv "AGE" (VInt 0) = inl (VInt 42)
  ∧ kindOf (VInt 42) = kindOf (VInt 0)
  ∧ (kindOf (VInt 0) = None → VInt 42 = VInt 0).
Proof.
  split; [reflexivity|].
  apply (lookupEnv_same_type ageEnv "AGE" (VInt 0) (VInt 42)). reflexivity.
Defined.

Lemma lookupEnv_idempotent_witness :
  lookupEnv ageEnv "AGE" (VInt 0) = inl (VInt 42)
  ∧ lookupEnv ageEnv "AGE" (VInt 42) = inl (VInt 42).
Proof.
  split; [reflexivity|].
  apply (lookupEnv_idempotent ageEnv "AGE" (VInt 0) (VInt 42)). reflexivity.
Defined.

Lemma lookupEnv_error_inv_witness :
  lookupEnv badEnv "ADDR_NUM" (VInt 0) = inr (ErrParse "ADDR_NUM" "x")
  ∧ ∃ raw, LookupEnv badEnv "ADDR_NUM" = Some raw
           ∧ kindOf (VInt 0) ≠ Some KString ∧ kindOf (VInt 0) ≠ Some KBool
           ∧ (is_Some (kindOf (VInt 0))
              ∧ ErrParse "ADDR_NUM" "x" = ErrParse "ADDR_NUM" raw
              ∨ kindOf (VInt 0) = None
                ∧ ErrParse "ADDR_NUM" "x" = ErrLookupUnsupported "ADDR_NUM").
Proof.
  split; [reflexivity|].
  apply (lookupEnv_error_inv badEnv "ADDR_NUM" (VInt 0)). reflexivity.
Defined.

(** The test "Nested structs": five leaf fields, five flags. *)
Lemma walk_registers_witness :
  let res := reflectStruct nestedEnv (VStruct nestedFields) "" [] st0 in
  reflectStruct nestedEnv (VStruct nestedFields) "" [] st0
  = (res.1.1, res.1.2, None)
  ∧ length (leavesOf (VStruct nestedFields) "" [] []) = 5%nat
  ∧ size (formal res.1.2)
    = (size (formal st0) + length (leavesOf (VStruct nestedFields) "" [] []))%nat.
Proof.
  intros res.
  assert (reflectStruct nestedEnv (VStruct nestedFields) "" [] st0
          = (res.1.1, res.1.2, None)) as E by (vm_compute; reflexivity).
  split; [exact E|]. split; [reflexivity|].
  destruct (walk_registers nestedEnv nestedFields "" [] st0 res.1.2 res.1.1 E)
    as (_ & Hsize & _).
  exact Hsize.
Defined.

Lemma walk_lookups_witness :
  let res := reflectStruct nestedEnv (VStruct nestedFields) "" [] st0 in
  reflectStruct nestedEnv (VStruct nestedFields) "" [] st0
  = (res.1.1, res.1.2, None)
  ∧ envNamesOf (leavesOf (VStruct nestedFields) "" [] [])
    = ["NAME"; "ADDR_STREET"; "ADDR_POSTCODE"; "STREET"; "POSTCODE"]
  ∧ lookups res.1.2
    = lookups st0 ++ envNamesOf (leavesOf (VStruct nestedFields) "" [] []).
Proof.
  intros res.
  assert (reflectStruct nestedEnv (VStruct nestedFields) "" [] st0
          = (res.1.1, res.1.2, None)) as E by (vm_compute; reflexivity).
  split; [exact E|]. split; [reflexivity|].
  exact (walk_lookups nestedEnv nestedFields "" [] st0 res.1.2 res.1.1 E).
Defined.

(** The struct whose field [Addr.Num] cannot be parsed. *)
Lemma walk_failures_witness :
  let ways f st' l :=
    (∃ e, f = Err (wrapTrail (leaf_trail l) e) ∧ leafError e)
    ∨ (f = Panic PanicAssert
       ∧ kindOf (leaf_val l) = None
       ∧ is_Some (typeSwitch (TypeString (leaf_val l))))
    ∨ (f = Panic (PanicBadName (leaf_name l))
       ∧ flagNameOK (leaf_name l) = false)
    ∨ (f = Panic (PanicRedefined (leaf_name l))
       ∧ is_Some (formal st' !! leaf_name l)) in
  (reflectStruct badEnv (VStruct failingFields) "" [] st0
   = (VStruct failingFields, afterNum,
      Some (Err (ErrFieldFailure (ErrParse "ADDR_NUM" "x") "Addr")))
   ∧ ∃ l, l ∈ leavesOf (VStruct failingFields) "" [] []
       ∧ ways (Err (ErrFieldFailure (ErrParse "ADDR_NUM" "x") "Addr"))
              afterNum l)
  ∧ (reflectStruct ∅ (VStruct foreignWait) "" [] st0
     = (VStruct foreignWait, State ∅ ["WAIT"], Some (Panic PanicAssert))
     ∧ ∃ l, l ∈ leavesOf (VStruct foreignWait) "" [] []
         ∧ ways (Panic PanicAssert) (State ∅ ["WAIT"]) l).
Proof.
  intros ways.
  assert (reflectStruct badEnv (VStruct failingFields) "" [] st0
          = (VStruct failingFields, afterNum,
             Some (Err (ErrFieldFailure (ErrParse "ADDR_NUM" "x") "Addr"))))
    as E by reflexivity.
  assert (reflectStruct ∅ (VStruct foreignWait) "" [] st0
          = (VStruct foreignWait, State ∅ ["WAIT"], Some (Panic PanicAssert)))
    as E' by reflexivity.
  split; (split; [done|]).
  - exact (walk_failures badEnv failingFields "" [] st0 afterNum
             (VStruct failingFields) _ E).
  - exact (walk_failures ∅ foreignWait "" [] st0 (State ∅ ["WAIT"])
             (VStruct foreignWait) _ E').
Defined.

(** The test "Supported types": the timeout of the client, behind
    [flag:"-"], is not touched. *)
Lemma unbound_fields_kept_witness :
  let res := ReadConfig ∅ DurT st0 [] in
  (∀ n F, formal st0 !! n = Some F → Flag_Ptr F = None)
  ∧ ReadConfig ∅ DurT st0 [] = (res.1.1, res.1.2, None)
  ∧ getp [4; 0]%nat DurT = Some (VDuration 0)
  ∧ fieldsOf (VDuration 0) = None
  ∧ (∀ n F, formal res.1.2 !! n = Some F → Flag_Ptr F ≠ Some [4; 0]%nat)
  ∧ getp [4; 0]%nat res.1.1 = Some (VDuration 0).
Proof.
  intros res.
  assert (∀ n F, formal st0 !! n = Some F → Flag_Ptr F = None) as Hout.
  { intros n F Hn. unfold st0 in Hn. simpl in Hn.
    rewrite lookup_empty in Hn. discriminate. }
  assert (ReadConfig ∅ DurT st0 [] = (res.1.1, res.1.2, None)) as E
    by (vm_compute; reflexivity).
  assert (∀ n F, formal res.1.2 !! n = Some F → Flag_Ptr F ≠ Some [4; 0]%nat)
    as Hfree.
  { assert (map_Forall (λ _ F, Flag_Ptr F ≠ Some [4; 0]%nat) (formal res.1.2))
      as Hall by (refine (bool_decide_unpack _ _); vm_compute; exact I).
    exact Hall. }
  split; [exact Hout|]. split; [exact E|]. split; [reflexivity|].
  split; [reflexivity|]. split; [exact Hfree|].
  exact (unbound_fields_kept ∅ DurT res.1.1 st0 res.1.2 [] Hout E
           [4; 0]%nat (VDuration 0) eq_refl eq_refl Hfree).
Defined.

(** The field [FirstName] of the test "Basic", annotated
    [flag:"first_name"]. *)
Lemma annotated_scalar_names_witness :
  Exported firstName = true
  ∧ fst (Lookup (Tag firstName) "flag") = "first_name"
  ∧ Lookup (Tag firstName) "env" = ("", false)
  ∧ kindOf (VString "John") = Some KString
  ∧ fieldStep basicEnv (reflectStruct basicEnv) "" [] 0 firstName
      (VString "John") st0
    = match lookupEnv basicEnv "FIRST_NAME" (VString "John") with
      | inr e => (VString "John", State ∅ ["FIRST_NAME"], Some (Err e))
      | inl d =>
          let '(st2, r) :=
            Var KString [0%nat] "first_name" d "first name of user"
                (State ∅ ["FIRST_NAME"]) in
          (d, st2, r)
      end.
Proof.
  repeat (split; [reflexivity|]).
  etrans;
    [apply (annotated_scalar_names basicEnv (reflectStruct basicEnv) "" [] 0
              firstName (VString "John") KString st0 "first_name" "" false);
     (reflexivity || discriminate)|].
  reflexivity.
Defined.

Lemma empty_flag_on_scalar_witness :
  fst (Lookup (Tag verbose) "flag") = ""
  ∧ fieldStep basicEnv (reflectStruct basicEnv) "" [] 0 verbose
      (VBool false) st0
    = fieldStep basicEnv (reflectStruct basicEnv) "" [] 0
        (withoutFlagTag verbose) (VBool false) st0.
Proof.
  split; [reflexivity|].
  apply (empty_flag_on_scalar basicEnv (reflectStruct basicEnv) "" [] 0
           verbose (VBool false) st0); (reflexivity || discriminate).
Defined.

(** The test "Basic", called a second time. *)
Lemma readConfig_twice_witness :
  let res := readConfig basicEnv basicCfg st0 in
  readConfig basicEnv basicCfg st0 = (res.1.1, res.1.2, None)
  ∧ formal res.1.2 ≠ formal st0
  ∧ ∃ n cfg'' st'',
      readConfig basicEnv res.1.1 res.1.2
      = (cfg'', st'', Some (Panic (PanicRedefined n)))
      ∧ formal st0 !! n = None ∧ is_Some (formal res.1.2 !! n).
Proof.
  intros res.
  assert (readConfig basicEnv basicCfg st0 = (res.1.1, res.1.2, None)) as E
    by (vm_compute; reflexivity).
  assert (formal res.1.2 ≠ formal st0) as Hnew.
  { intros Heq.
    assert (formal res.1.2 !! "age" = Some ageFlag) as Hage
      by (vm_compute; reflexivity).
    rewrite Heq in Hage. unfold st0 in Hage. simpl in Hage.
    rewrite lookup_empty in Hage. discriminate. }
  split; [exact E|]. split; [exact Hnew|].
  exact (readConfig_twice basicEnv basicCfg res.1.1 st0 res.1.2 E Hnew).
Defined.

Lemma tests_always_pass_witness :
  let res := reflectStruct nestedEnv (VStruct nestedFields) "" [] st0 in
  let flags := (map_to_list (formal res.1.2)).*2 in
  formal st0 = ∅
  ∧ reflectStruct nestedEnv (VStruct nestedFields) "" [] st0
    = (res.1.1, res.1.2, None)
  ∧ flags ≡ₚ (map_to_list (formal res.1.2)).*2
  ∧ length flags = length (leavesOf (VStruct nestedFields) "" [] [])
  ∧ checkFlags flags
      (map leaf_name (leavesOf (VStruct nestedFields) "" [] [])) = true.
Proof.
  intros res flags.
  assert (reflectStruct nestedEnv (VStruct nestedFields) "" [] st0
          = (res.1.1, res.1.2, None)) as E by (vm_compute; reflexivity).
  split; [reflexivity|]. split; [exact E|]. split; [reflexivity|].
  exact (tests_always_pass nestedEnv nestedFields "" [] st0 res.1.2 res.1.1
           flags eq_refl E (reflexivity _)).
Defined.

(** The failing struct again: [Name] is registered, [Addr.Num] is where
    the walk fails. *)
(** A nested struct whose first field cannot be parsed. *)
Lemma fail_fast_witness :
  let nameLeaf :=
    LeafField [0%nat] "name" (Finfo "Name" true noTag) (VString "") [] in
  let numLeaf :=
    LeafField [1%nat; 0%nat] "addr-num" (Finfo "Num" true noTag) (VInt 0)
              ["Addr"] in
  let zipLeaf :=
    LeafField [1%nat; 1%nat] "addr-zip" (Finfo "Zip" true noTag) (VString "")
              ["Addr"] in
  let lastLeaf :=
    LeafField [2%nat] "last" (Finfo "Last" true noTag) (VString "") [] in
  leavesOf (VStruct failingFields) "" [] []
  = [nameLeaf] ++ numLeaf :: [zipLeaf; lastLeaf]
  ∧ runLeaves badEnv [nameLeaf] st0 = (afterName, None)
  ∧ fst (Lookup (Tag (leaf_info numLeaf)) "env") ≠ "-"
  ∧ lookupEnv badEnv "ADDR_NUM" (VInt 0) = inr (ErrParse "ADDR_NUM" "x")
  ∧ ∃ v', reflectStruct badEnv (VStruct failingFields) "" [] st0
          = (v', afterNum,
             Some (Err (ErrFieldFailure (ErrParse "ADDR_NUM" "x") "Addr")))
          ∧ leavesOf v' "" [] [] = [nameLeaf; numLeaf; zipLeaf; lastLeaf].
Proof.
  intros nameLeaf numLeaf zipLeaf lastLeaf.
  assert (leavesOf (VStruct failingFields) "" [] []
          = [nameLeaf] ++ numLeaf :: [zipLeaf; lastLeaf]) as Hls
    by reflexivity.
  assert (runLeaves badEnv [nameLeaf] st0 = (afterName, None)) as Hrun
    by reflexivity.
  assert (fst (Lookup (Tag (leaf_info numLeaf)) "env") ≠ "-") as Henv
    by discriminate.
  split; [exact Hls|]. split; [exact Hrun|]. split; [exact Henv|].
  split; [reflexivity|].
  destruct (fail_fast badEnv failingFields "" [] st0 afterName [nameLeaf]
              [zipLeaf; lastLeaf] numLeaf Hls Hrun) as (_ & W2 & W3).
  destruct (W3 _ _ _ (W2 (ErrParse "ADDR_NUM" "x") Henv eq_refl))
    as (_ & _ & v' & E & Hl).
  exists v'. split; [exact E|exact Hl].
Defined.

Lemma walk_failure_partial_witness :
  reflectStruct badEnv (VStruct failingFields) "" [] st0
  = (VStruct failingFields, afterNum,
     Some (Err (ErrFieldFailure (ErrParse "ADDR_NUM" "x") "Addr")))
  ∧ ∃ ls1 l ls2,
      leavesOf (VStruct failingFields) "" [] [] = ls1 ++ l :: ls2
      ∧ dom (formal afterNum)
        = dom (formal st0) ∪ list_to_set (map leaf_name ls1)
      ∧ size (formal afterNum) = (size (formal st0) + length ls1)%nat
      ∧ ∀ l1, l1 ∈ ls1 →
          ∃ d, resolved badEnv l1 = inl d
               ∧ formal afterNum !! leaf_name l1 = flagOf l1 d.
Proof.
  assert (reflectStruct badEnv (VStruct failingFields) "" [] st0
          = (VStruct failingFields, afterNum,
             Some (Err (ErrFieldFailure (ErrParse "ADDR_NUM" "x") "Addr"))))
    as E by reflexivity.
  split; [exact E|].
  exact (walk_failure_partial badEnv failingFields "" [] st0 afterNum
           (VStruct failingFields) _ E).
Defined.

End WitnessMore.
